(** * Lab_2_4_LR2: linear regression, gradient descent and one-hot encoding

    A shallow embedding of [src/Lab_2_4_LR2.py] and the properties its
    specification states about it.

    - numpy arrays are shape-carrying values: a one-dimensional array is a
      length together with a column of that length, a two-dimensional array
      is a row count, a column count and a matrix.  Shapes are dynamic, as
      in numpy: operations that combine two arrays test the shapes and raise
      when they do not fit.
    - floating-point numbers are idealised as the elements of a real field
      [F] (exact arithmetic); [rat] is the instance used on concrete data.
    - a method of [LinearRegressor] is a computation over the object's
      fields and the standard output: it returns a value or raises, and the
      fields keep whatever was assigned before an exception.
    - [np.random.rand] draws are an explicit argument of [fit].
    - [iterations] and the column indices of [one_hot_encode] are natural
      numbers; Python's negative ints are outside the model. *)

From Stdlib Require Import String.
From HB Require Import structures.
From mathcomp Require Import boot order algebra.

Set Implicit Arguments.
Unset Strict Implicit.
Unset Printing Implicit Defensive.

Import GRing.Theory Num.Theory.
Local Open Scope ring_scope.

(** ** Exceptions and results *)

Inductive exn : Type :=
| ValueError (msg : string)  (* [raise ValueError(msg)] of the source *)
| NumpyValueError            (* ValueError raised inside numpy: shapes not
                                aligned, operands not broadcastable,
                                negative dimension, axis out of bounds *)
| IndexError
| TypeError
| AttributeError
| LinAlgError
| ZeroDivisionError.

Inductive result (A : Type) : Type :=
| Ok (a : A)
| Raise (e : exn).

Arguments Ok {A} a.
Arguments Raise {A} e.

Definition is_ok {A} (r : result A) : bool :=
  if r is Ok _ then true else false.

(** ** numpy arrays *)

Inductive array1 (T : Type) : Type :=
| Array1 (n : nat) (v : 'cV[T]_n).

Inductive array2 (T : Type) : Type :=
| Array2 (m p : nat) (M : 'M[T]_(m, p)).

Inductive ndarray (T : Type) : Type :=
| Nd1 (a : array1 T)
| Nd2 (A : array2 T).

Arguments Array1 {T n} v.
Arguments Array2 {T m p} M.

Section Arrays.

Variable T : Type.

Definition len (a : array1 T) : nat := let: Array1 n _ := a in n.

Definition nrows (A : array2 T) : nat := let: Array2 m _ _ := A in m.

Definition ncols (A : array2 T) : nat := let: Array2 _ p _ := A in p.

(** [a[i]] and [A[i, j]] for indices known to the caller to be in range;
    the default [x0] stands outside the array. *)
Definition item1 (x0 : T) (a : array1 T) (i : nat) : T :=
  let: Array1 n v := a in
  if (insub i : option 'I_n) is Some i' then v i' ord0 else x0.

Definition item2 (x0 : T) (A : array2 T) (i j : nat) : T :=
  let: Array2 m p M := A in
  match (insub i : option 'I_m), (insub j : option 'I_p) with
  | Some i', Some j' => M i' j'
  | _, _ => x0
  end.

Definition np_ndim (X : ndarray T) : nat :=
  match X with Nd1 _ => 1%N | Nd2 _ => 2%N end.

(** [a.reshape(-1, 1)] on a one-dimensional array *)
Definition reshape_col (a : array1 T) : array2 T :=
  let: Array1 n v := a in Array2 v.

(** [np.insert(X, 0, c, axis=1)] *)
Definition np_insert_col0 (c : T) (A : array2 T) : array2 T :=
  let: Array2 m p M := A in Array2 (row_mx (const_mx c : 'M_(m, 1)) M).

Definition np_transpose (A : array2 T) : array2 T :=
  let: Array2 m p M := A in Array2 M^T.

(** [w[0]] *)
Definition getitem0 (x0 : T) (a : array1 T) : result T :=
  if len a is 0%N then Raise IndexError else Ok (item1 x0 a 0).

(** [w[1:]] *)
Definition slice_from1 (x0 : T) (a : array1 T) : array1 T :=
  Array1 (\col_(i < (len a).-1) item1 x0 a i.+1).

(** [X[:, 1:]] *)
Definition cols_from1 (x0 : T) (A : array2 T) : array2 T :=
  Array2 (\matrix_(i < nrows A, j < (ncols A).-1) item2 x0 A i j.+1).

(** The elementwise binary operators of numpy on one-dimensional operands,
    with broadcasting of a one-element operand. *)
Definition broadcast1 (x0 : T) (op : T -> T -> T) (a b : array1 T) :
  result (array1 T) :=
  if len a == len b then
    Ok (Array1 (\col_(i < len a) op (item1 x0 a i) (item1 x0 b i)))
  else if len a == 1%N then
    Ok (Array1 (\col_(i < len b) op (item1 x0 a 0) (item1 x0 b i)))
  else if len b == 1%N then
    Ok (Array1 (\col_(i < len a) op (item1 x0 a i) (item1 x0 b 0)))
  else Raise NumpyValueError.

(** The in-place operators ([a -= b]): the result keeps the shape of [a]. *)
Definition inplace1 (x0 : T) (op : T -> T -> T) (a b : array1 T) :
  result (array1 T) :=
  if len b == len a then
    Ok (Array1 (\col_(i < len a) op (item1 x0 a i) (item1 x0 b i)))
  else if len b == 1%N then
    Ok (Array1 (\col_(i < len a) op (item1 x0 a i) (item1 x0 b 0)))
  else Raise NumpyValueError.

End Arrays.

Section NumericArrays.

Variable F : realFieldType.

Local Abbreviation vec := (array1 F).
Local Abbreviation mat := (array2 F).

Definition at1 (a : vec) (i : nat) : F := item1 0 a i.
Definition at2 (A : mat) (i j : nat) : F := item2 0 A i j.

(** [np.dot] on the operand ranks the program uses *)
Definition np_dot22 (A B : mat) : result mat :=
  if ncols A == nrows B then
    Ok (Array2 (\matrix_(i < nrows A, j < ncols B)
                  \sum_(l < ncols A) at2 A i l * at2 B l j))
  else Raise NumpyValueError.

Definition np_dot21 (A : mat) (b : vec) : result vec :=
  if ncols A == len b then
    Ok (Array1 (\col_(i < nrows A) \sum_(l < ncols A) at2 A i l * at1 b l))
  else Raise NumpyValueError.

Definition np_dot12 (a : vec) (B : mat) : result vec :=
  if len a == nrows B then
    Ok (Array1 (\col_(j < ncols B) \sum_(l < nrows B) at1 a l * at2 B l j))
  else Raise NumpyValueError.

(** [np.linalg.inv]: the inverse of a square invertible matrix *)
Definition np_linalg_inv (A : mat) : result mat :=
  if nrows A == ncols A then
    let S : 'M[F]_(nrows A) := \matrix_(i, j) at2 A i j in
    if S \in unitmx then Ok (Array2 (invmx S)) else Raise LinAlgError
  else Raise LinAlgError.

(** scalar * array, array + scalar, array ** 2, np.sum, np.mean *)
Definition scale1 (c : F) (a : vec) : vec :=
  let: Array1 n v := a in Array1 (c *: v).

Definition add_scalar (a : vec) (c : F) : vec :=
  let: Array1 n v := a in Array1 (v + const_mx c).

Definition square1 (a : vec) : vec :=
  let: Array1 n v := a in Array1 (\col_i (v i ord0) ^+ 2).

Definition np_sum (a : vec) : F :=
  let: Array1 n v := a in \sum_i v i ord0.

(** [np.mean] of an empty array is nan ([None]), not an exception. *)
Definition np_mean (a : vec) : option F :=
  if len a is 0%N then None else Some (np_sum a / (len a)%:R).

(** Python's [1 / m] on an int [m] *)
Definition py_inv (m : nat) : result F :=
  if m is 0%N then Raise ZeroDivisionError else Ok (m%:R^-1).

End NumericArrays.

(** ** The [LinearRegressor] class *)

Section Regressor.

Variable F : realFieldType.

Local Abbreviation vec := (array1 F).
Local Abbreviation mat := (array2 F).

Record LinearRegressor : Type := Regressor {
  coefficients : option vec;   (* [None] until a fit assigns it *)
  intercept : option F
}.

(** [LinearRegressor.__init__] *)
Definition init : LinearRegressor :=
  {| coefficients := None; intercept := None |}.

(** What a method can read and change: the object's fields and the lines
    printed so far (epoch and mean squared error of each report). *)
Record world : Type := World {
  self : LinearRegressor;
  stdout : seq (nat * option F)
}.

(** Computations that return or raise; the world is kept either way. *)
Definition M (A : Type) : Type := world -> result A * world.

Definition ret {A} (a : A) : M A := fun w => (Ok a, w).

Definition raise {A} (e : exn) : M A := fun w => (Raise e, w).

Definition lift {A} (r : result A) : M A := fun w => (r, w).

Definition bind {A B} (c : M A) (k : A -> M B) : M B :=
  fun w => match c w with
           | (Ok a, w') => k a w'
           | (Raise e, w') => (Raise e, w')
           end.

Notation "x <-- c ;; k" := (bind c (fun x => k))
  (at level 200, c at level 100, k at level 200, right associativity).
Notation "c ;;; k" := (bind c (fun _ => k))
  (at level 200, k at level 200, right associativity).

Definition get_coefficients : M (option vec) :=
  fun w => (Ok (coefficients (self w)), w).

Definition get_intercept : M (option F) :=
  fun w => (Ok (intercept (self w)), w).

Definition set_coefficients (c : vec) : M unit :=
  fun w => (Ok tt, World (Regressor (Some c) (intercept (self w))) (stdout w)).

Definition set_intercept (b : F) : M unit :=
  fun w => (Ok tt, World (Regressor (coefficients (self w)) (Some b)) (stdout w)).

Definition print (epoch : nat) (mse : option F) : M unit :=
  fun w => (Ok tt, World (self w) (rcons (stdout w) (epoch, mse))).

(** [for x in xs: s = body(x, s)] *)
Fixpoint for_each {A S} (xs : seq A) (body : A -> S -> M S) (s : S) : M S :=
  if xs is x :: xs' then s' <-- body x s ;; for_each xs' body s'
  else ret s.

(** Python's [a % b] on non-negative ints *)
Definition py_mod (a b : nat) : result nat :=
  if b is 0%N then Raise ZeroDivisionError else Ok (a %% b)%N.

(** The draws of [np.random.rand(n)] and [np.random.rand()] of one call *)
Record rng : Type := Rng {
  rand_array : forall n : nat, 'cV[F]_n;
  rand_float : F
}.

Definition not_fitted_msg : string := "Model is not yet fitted".

Definition method_msg (method : string) : string :=
  String.append "Method "
    (String.append method " not available for training linear regression.").

(** [LinearRegressor.predict] *)
Definition predict (X : ndarray F) : M vec :=
  c <-- get_coefficients ;;
  b <-- get_intercept ;;
  match c, b with
  | Some coef, Some b0 =>
      match X with
      | Nd1 x =>                                    (* np.ndim(X) == 1 *)
          t <-- lift (broadcast1 0 *%R coef x) ;;
          ret (add_scalar t b0)
      | Nd2 A =>
          t <-- lift (np_dot21 A coef) ;;
          ret (add_scalar t b0)
      end
  | _, _ => raise (ValueError not_fitted_msg)
  end.

(** [LinearRegressor.fit_multiple]; [X] comes with its bias column. *)
Definition fit_multiple (X : mat) (y : vec) : M unit :=
  let X_t := np_transpose X in
  XtX <-- lift (np_dot22 X_t X) ;;
  w1 <-- lift (np_linalg_inv XtX) ;;
  w2 <-- lift (np_dot22 w1 X_t) ;;
  w <-- lift (np_dot21 w2 y) ;;
  w0 <-- lift (getitem0 0 w) ;;
  set_intercept w0 ;;;
  set_coefficients (slice_from1 0 w).

(** The three lists [fit_gradient_descent] builds and returns.  The list
    of intercepts holds whatever [self.intercept] is at that point. *)
Definition history : Type := (seq F * seq vec * seq (option F))%type.

(** [x -= d] on a field that may still be [None] *)
Definition isub_intercept (d : F) : M unit :=
  b <-- get_intercept ;;
  if b is Some b0 then set_intercept (b0 - d) else raise TypeError.

Definition isub_coefficients (d : vec) : M unit :=
  c <-- get_coefficients ;;
  if c is Some c0 then
    c' <-- lift (inplace1 0 (fun u v => u - v) c0 d) ;; set_coefficients c'
  else raise TypeError.

(** [mse_list.append(...); coefficients.append(...); intercepts.append(...)] *)
Definition record_epoch (m : nat) (error : vec) (h : history) : M history :=
  let: (mse_list, coefs, intercepts) := h in
  inv_m <-- lift (py_inv F m) ;;
  let mse_list' := rcons mse_list (inv_m * np_sum (square1 error)) in
  c <-- get_coefficients ;;
  if c is Some c0 then
    let coefs' := rcons coefs c0 in                 (* .copy() *)
    b <-- get_intercept ;;
    ret (mse_list', coefs', rcons intercepts b)
  else raise AttributeError.

(** The body of the loop of [fit_gradient_descent] *)
Definition gd_epoch (X : mat) (y : vec) (m : nat) (learning_rate : F)
    (iterations epoch : nat) (h : history) : M history :=
  predictions <-- predict (Nd2 (cols_from1 0 X)) ;;
  error <-- lift (broadcast1 0 (fun u v => u - v) predictions y) ;;
  inv_m <-- lift (py_inv F m) ;;
  d <-- lift (np_dot12 error X) ;;
  let gradient := scale1 inv_m d in
  g0 <-- lift (getitem0 0 gradient) ;;
  isub_intercept (learning_rate * g0) ;;;
  isub_coefficients (scale1 learning_rate (slice_from1 0 gradient)) ;;;
  r10 <-- lift (py_mod epoch (iterations %/ 10)) ;;
  (if r10 == 0%N then print epoch (np_mean (square1 error)) else ret tt) ;;;
  r100 <-- lift (py_mod epoch (iterations %/ 100)) ;;
  if (r100 == 0%N) && (1000 < iterations)%N then record_epoch m error h
  else record_epoch m error h.

(** [LinearRegressor.fit_gradient_descent]; [X] comes with its bias column. *)
Definition fit_gradient_descent (g : rng) (X : mat) (y : vec)
    (learning_rate : F) (iterations : nat) : M history :=
  let m := len y in
  (if ncols X is p.+1 then
     set_coefficients (scale1 (100%:R^-1) (Array1 (rand_array g p)))
   else raise NumpyValueError) ;;;
  set_intercept (rand_float g * 100%:R^-1) ;;;
  for_each (iota 0 iterations)
    (gd_epoch X y m learning_rate iterations) ([::], [::], [::]).

(** [LinearRegressor.fit]; it returns [None] after a least-squares fit and
    the three histories after gradient descent. *)
Definition fit (g : rng) (X : ndarray F) (y : vec) (method : string)
    (learning_rate : F) (iterations : nat) : M (option history) :=
  if ~~ (String.eqb method "least_squares"
         || String.eqb method "gradient_descent") then
    raise (ValueError (method_msg method))
  else
    let X2 := match X with
              | Nd1 x => reshape_col x              (* np.ndim(X) == 1 *)
              | Nd2 A => A
              end in
    let X_with_bias := np_insert_col0 1 X2 in
    if String.eqb method "least_squares" then
      fit_multiple X_with_bias y ;;; ret None
    else if String.eqb method "gradient_descent" then
      h <-- fit_gradient_descent g X_with_bias y learning_rate iterations ;;
      ret (Some h)
    else ret None.

End Regressor.

(** ** [one_hot_encode] *)

(** Code without side effects: results are chained directly. *)
Definition rbind {A B} (r : result A) (k : A -> result B) : result B :=
  match r with Ok a => k a | Raise e => Raise e end.

Notation "x <-? r ;; k" := (rbind r (fun x => k))
  (at level 200, r at level 100, k at level 200, right associativity).

(** [for x in xs: s = body(x, s)] *)
Fixpoint rfold {A S} (xs : seq A) (body : A -> S -> result S) (s : S) :
  result S :=
  if xs is x :: xs' then s' <-? body x s ;; rfold xs' body s' else Ok s.

Section OneHot.

(** The entries of the data matrix: any type with equality ([==] of the
    source), the order [np.unique] sorts by, and numpy's conversion of the
    integers of the indicator columns to the type of the entries. *)
Variable T : eqType.
Variable leT : rel T.
Variable of_int : nat -> T.

Local Abbreviation x0 := (of_int 0).

(** [np.delete(A, index, 1)] *)
Definition np_delete_col (A : array2 T) (index : nat) : result (array2 T) :=
  let: Array2 m p M := A in
  if (insub index : option 'I_p) is Some j then Ok (Array2 (col' j M))
  else Raise IndexError.

(** [A[:, index]] *)
Definition getcol (A : array2 T) (index : nat) : result (array1 T) :=
  let: Array2 m p M := A in
  if (insub index : option 'I_p) is Some j then Ok (Array1 (col j M))
  else Raise IndexError.

(** [np.unique]: the distinct values, sorted *)
Definition np_unique (a : array1 T) : seq T :=
  sort leT (undup [seq item1 x0 a i | i <- iota 0 (len a)]).

(** [np.array] of a list of rows of one length; of the empty list it is a
    one-dimensional array without elements. *)
Definition np_array (values : seq (seq nat)) : ndarray nat :=
  if values is row0 :: _ then
    Nd2 (Array2 (\matrix_(i < size values, j < size row0)
                   nth 0%N (nth [::] values i) j))
  else Nd1 (Array1 (const_mx 0%N : 'cV_0)).

(** [a[:, 1:]] *)
Definition nd_cols_from1 (a : ndarray nat) : result (ndarray nat) :=
  match a with
  | Nd1 _ => Raise IndexError
  | Nd2 A => Ok (Nd2 (cols_from1 0%N A))
  end.

(** [np.concatenate((a, B), axis=1)], the integers of [a] converted *)
Definition np_concatenate1 (a : ndarray nat) (B : array2 T) :
  result (array2 T) :=
  match a with
  | Nd1 _ => Raise NumpyValueError
  | Nd2 A =>
      if nrows A == nrows B then
        Ok (Array2 (\matrix_(i < nrows A, j < ncols A + ncols B)
                      if (j < ncols A)%N then of_int (item2 0%N A i j)
                      else item2 x0 B i (j - ncols A)))
      else Raise NumpyValueError
  end.

(** The body of the second loop of [one_hot_encode]: the indicator columns
    of column [index] of [X] go in front of [X_transformed]. *)
Definition encode_column (X : array2 T) (drop_first : bool) (index : nat)
    (X_transformed : array2 T) : result (array2 T) :=
  categorical_column <-? getcol X index ;;
  let unique_values := np_unique categorical_column in
  let values :=
    [seq [seq (if item1 x0 categorical_column i == value then 1%N else 0%N)
         | value <- unique_values]
    | i <- iota 0 (len categorical_column)] in
  let one_hot := np_array values in
  one_hot <-? (if drop_first then nd_cols_from1 one_hot else Ok one_hot) ;;
  np_concatenate1 one_hot X_transformed.

Definition one_hot_encode (X : array2 T) (categorical_indices : seq nat)
    (drop_first : bool) : result (array2 T) :=
  let X_transformed := X in                               (* X.copy() *)
  X_transformed <-?
    rfold (sort geq categorical_indices)
      (fun index X_transformed => np_delete_col X_transformed index)
      X_transformed ;;
  rfold (sort geq categorical_indices) (encode_column X drop_first)
    X_transformed.

(** *** What the specification says of the result *)

(** Row [i] of a two-dimensional array, and all its rows in order *)
Definition row_of (A : array2 T) (i : nat) : seq T :=
  [seq item2 x0 A i j | j <- iota 0 (ncols A)].

Definition rows_of (A : array2 T) : seq (seq T) :=
  [seq row_of A i | i <- iota 0 (nrows A)].

(** Column [c] as a list, and the number of distinct values in it *)
Definition column (A : array2 T) (c : nat) : seq T :=
  [seq item2 x0 A i c | i <- iota 0 (nrows A)].

Definition unique_count (A : array2 T) (c : nat) : nat :=
  size (undup (column A c)).

(** A row without its entry at position [c] *)
Definition del_at (c : nat) (r : seq T) : seq T := take c r ++ drop c.+1 r.

(** The indicator columns of a value [v] of column [c]: one per distinct
    value of the column, in sorted order, without the first on request *)
Definition indicators (X : array2 T) (drop_first : bool) (c : nat) (v : T) :
  seq T :=
  [seq of_int (v == u) | u <- drop drop_first (sort leT (undup (column X c)))].

(** The encoding of one row [r] of [X]: the indicator columns of its
    categorical entries by increasing column index, then its other entries
    in their order. *)
Definition encode_row (X : array2 T) (cats : seq nat) (drop_first : bool)
    (r : seq T) : seq T :=
  flatten [seq indicators X drop_first c (nth x0 r c)
          | c <- rev (sort geq cats)]
  ++ foldl (fun r c => del_at c r) r (sort geq cats).

End OneHot.

(** ** The quantities the specification names *)

Section SpecQuantities.

Variable F : realFieldType.

(** The bias-augmented matrix and the solution of the normal equation
    over it. *)
Definition augmented m p (X : 'M[F]_(m, p)) : 'M[F]_(m, 1 + p) :=
  row_mx (const_mx 1) X.

Definition normal_equation m p (X : 'M[F]_(m, p)) (y : 'cV[F]_m) :
  'cV[F]_(1 + p) :=
  invmx ((augmented X)^T *m augmented X) *m (augmented X)^T *m y.

(** A feature argument [X] of [m] samples read as an [m] x [p] matrix: a
    two-dimensional array as it is, a one-dimensional one as one column. *)
Inductive features m : forall p, ndarray F -> 'M[F]_(m, p) -> Prop :=
| features2 p (X : 'M[F]_(m, p)) : features (Nd2 (Array2 X)) X
| features1 (x : 'cV[F]_m) : features (Nd1 (Array1 x)) x.

(** The fields of a model whose parameter vector is [w]: [w[0]] is the
    intercept, [w[1:]] the coefficients. *)
Definition fitted p (w : 'cV[F]_(1 + p)) : LinearRegressor F :=
  {| coefficients := Some (Array1 (dsubmx w));
     intercept := Some (w ord0 ord0) |}.

(** One epoch of batch gradient descent on the parameter vector, over the
    augmented matrix [Xa]:
      predictions = X . coefficients + intercept   (X = Xa without column 0)
      error       = predictions - y
      gradient    = (1/m) * error^T . Xa
      w          -= learning_rate * gradient                              *)
Definition gd_error m p (Xa : 'M[F]_(m, 1 + p)) (y : 'cV[F]_m)
    (w : 'cV[F]_(1 + p)) : 'cV[F]_m :=
  (rsubmx Xa *m dsubmx w + const_mx (w ord0 ord0)) - y.

Definition gd_gradient m p (Xa : 'M[F]_(m, 1 + p)) (y : 'cV[F]_m)
    (w : 'cV[F]_(1 + p)) : 'cV[F]_(1 + p) :=
  m%:R^-1 *: (Xa^T *m gd_error Xa y w).

Definition gd_step m p (lr : F) (Xa : 'M[F]_(m, 1 + p)) (y : 'cV[F]_m)
    (w : 'cV[F]_(1 + p)) : 'cV[F]_(1 + p) :=
  w - lr *: gd_gradient Xa y w.

(** The mean squared error recorded in an epoch that starts at [w] *)
Definition gd_mse m p (Xa : 'M[F]_(m, 1 + p)) (y : 'cV[F]_m)
    (w : 'cV[F]_(1 + p)) : F :=
  m%:R^-1 * \sum_i (gd_error Xa y w i ord0) ^+ 2.

(** The parameter vector [fit_gradient_descent] starts from *)
Definition gd_start (g : rng F) p : 'cV[F]_(1 + p) :=
  col_mx (const_mx (rand_float g * 100%:R^-1) : 'cV[F]_1)
         (100%:R^-1 *: rand_array g p).

(** The first [n] iterates of the epoch, and what the loop has recorded
    and printed after them when it started at [w0] in epoch [k]. *)
Definition gd_params m p (lr : F) (Xa : 'M[F]_(m, 1 + p)) (y : 'cV[F]_m)
    (w0 : 'cV[F]_(1 + p)) (n : nat) : 'cV[F]_(1 + p) :=
  iter n (gd_step lr Xa y) w0.

Definition gd_history m p (lr : F) (Xa : 'M[F]_(m, 1 + p)) (y : 'cV[F]_m)
    (w0 : 'cV[F]_(1 + p)) (n : nat) : history F :=
  ([seq gd_mse Xa y (gd_params lr Xa y w0 i) | i <- iota 0 n],
   [seq Array1 (dsubmx (gd_params lr Xa y w0 i.+1)) | i <- iota 0 n],
   [seq Some (gd_params lr Xa y w0 i.+1 ord0 ord0) | i <- iota 0 n]).

Definition gd_reports m p (lr : F) (Xa : 'M[F]_(m, 1 + p)) (y : 'cV[F]_m)
    (it : nat) (w0 : 'cV[F]_(1 + p)) (k n : nat) : seq (nat * option F) :=
  [seq (k + i, Some (gd_mse Xa y (gd_params lr Xa y w0 i)))%N
  | i <- iota 0 n & ((k + i) %% (it %/ 10) == 0)%N].

(** What one pass through the loop body does on well-shaped data, from the
    parameter vector [w] and the printed lines [out] *)
Definition epoch_outcome m p (Xa : 'M[F]_(m, 1 + p)) (y : 'cV[F]_m) (lr : F)
    (it epoch : nat) (h : history F) (w : 'cV[F]_(1 + p))
    (out : seq (nat * option F)) : result (history F) * world F :=
  if m is 0%N then (Raise ZeroDivisionError, World (fitted w) out) else
  let w' := gd_step lr Xa y w in
  if (it %/ 10)%N is 0%N then (Raise ZeroDivisionError, World (fitted w') out)
  else
    let out' := if (epoch %% (it %/ 10))%N == 0%N
                then rcons out (epoch, Some (gd_mse Xa y w)) else out in
    if (it %/ 100)%N is 0%N then
      (Raise ZeroDivisionError, World (fitted w') out')
    else
      (Ok (let: (ms, cs, bs) := h in
           (rcons ms (gd_mse Xa y w), rcons cs (Array1 (dsubmx w')),
            rcons bs (Some (w' ord0 ord0)))),
       World (fitted w') out').

(** [fit] with gradient descent returns exactly when there is no epoch to
    run, or when there are at least 100 and [y] is not empty. *)
Definition gd_returns (m it : nat) : bool :=
  (it == 0%N) || ((100 <= it)%N && (0 < m)%N).

(** Both parameters are set. *)
Definition both_set (w : world F) : bool :=
  isSome (coefficients (self w)) && isSome (intercept (self w)).

(** A computation keeps a property of the world, however it ends. *)
Definition preserves (P : world F -> bool) A (c : M F A) : Prop :=
  forall w, P w -> P (c w).2.

(** [fit] hands the histories of [fit_gradient_descent] on. *)
Definition some_history (r : result (history F)) :
  result (option (history F)) :=
  match r with Ok h => Ok (Some h) | Raise e => Raise e end.

End SpecQuantities.

(** ** Sample data *)

(** Two samples of one feature, [X = [[0], [1]]] and [y = [1, 3]], the
    draws [0.5] of the random generator and a fresh model. *)
Definition X0 : 'M[rat]_(1 + 1, 1) := col_mx 0 1%:M.

Definition y0 : 'cV[rat]_(1 + 1) := col_mx 1%:M (3%:R)%:M.

Definition rng0 : rng rat :=
  {| rand_array := fun n => const_mx (2%:R^-1); rand_float := 2%:R^-1 |}.

Definition fresh : world rat := World (init rat) [::].

(** A data matrix of three rows whose column 0 is categorical,
    [[0, 1], [1, 2], [0, 3]], and a matrix of one column without rows. *)
Definition D0 : 'M[nat]_(3, 2) :=
  \matrix_(i, j) (if j == ord0 then (i == 1 :> nat) : nat else i.+1).

Definition E0 : 'M[nat]_(0, 1) := const_mx 0%N.

(** ** [evaluate_regression] *)

Section Evaluate.

(** [np.sqrt] needs square roots: the numbers are those of a real closed
    field.  A float that is not finite (nan, inf) is [None]. *)
Variable R : rcfType.

Definition xfloat : Type := option R.

Definition xadd (a b : xfloat) : xfloat :=
  match a, b with Some u, Some v => Some (u + v) | _, _ => None end.

Definition xsub (a b : xfloat) : xfloat :=
  match a, b with Some u, Some v => Some (u - v) | _, _ => None end.

(** Division of numpy floats: by zero it gives inf or nan and a warning. *)
Definition xdiv (a b : xfloat) : xfloat :=
  match a, b with
  | Some u, Some v => if v == 0 then None else Some (u / v)
  | _, _ => None
  end.

(** [a - s] for an array and a scalar float, [a ** 2] and [np.sum] on the
    resulting array of floats *)
Definition sub_xscalar (a : array1 R) (s : xfloat) : array1 xfloat :=
  let: Array1 n v := a in Array1 (\col_i xsub (Some (v i ord0)) s).

Definition xsquare1 (a : array1 xfloat) : array1 xfloat :=
  let: Array1 n v := a in
  Array1 (\col_i (if v i ord0 is Some u then Some (u ^+ 2) else None)).

Definition xsum (a : array1 xfloat) : xfloat :=
  foldr xadd (Some 0) [seq item1 None a i | i <- iota 0 (len a)].

(** [abs(a)] *)
Definition abs1 (a : array1 R) : array1 R :=
  let: Array1 n v := a in Array1 (\col_i `|v i ord0|).

(** The dictionary [evaluate_regression] returns *)
Record metrics : Type := Metrics {
  R2 : xfloat;
  RMSE : R;
  MAE : R
}.

Definition evaluate_regression (y_true y_pred : array1 R) : result metrics :=
  let difference := broadcast1 0 (fun u v => u - v) y_true y_pred in
  d <-? difference ;;
  let rss := np_sum (square1 d) in
  let y_mean := np_mean y_true in
  let tss := xsum (xsquare1 (sub_xscalar y_true y_mean)) in
  let r_squared := xsub (Some 1) (xdiv (Some rss) tss) in
  let N := len y_true in
  d <-? difference ;;
  let mse := np_sum (square1 d) in
  inv_N <-? py_inv R N ;;
  let rmse := Num.sqrt (inv_N * mse) in
  d <-? difference ;;
  let mae_sum := np_sum (abs1 d) in
  inv_N <-? py_inv R N ;;
  let mae := inv_N * mae_sum in
  Ok {| R2 := r_squared; RMSE := rmse; MAE := mae |}.

(** *** The quantities of the evaluation *)

Definition mean m (y : 'cV[R]_m) : R := (\sum_i y i ord0) / m%:R.

(** Total and residual sums of squares, and the sum of absolute errors *)
Definition tss m (y : 'cV[R]_m) : R := \sum_i (y i ord0 - mean y) ^+ 2.

Definition rss m (y yhat : 'cV[R]_m) : R :=
  \sum_i (y i ord0 - yhat i ord0) ^+ 2.

Definition sae m (y yhat : 'cV[R]_m) : R :=
  \sum_i `|y i ord0 - yhat i ord0|.

(** All entries of [y] are equal. *)
Definition is_constant m (y : 'cV[R]_m) : bool :=
  [forall i, forall j, y i ord0 == y j ord0].

End Evaluate.

(** ** One-hot vectors *)

(** The list of length [n] with a one at position [j] and zeros elsewhere,
    in the type of the entries *)
Definition one_hot_vector (T : Type) (of_int : nat -> T) (n j : nat) : seq T :=
  [seq of_int (k == j) | k <- iota 0 n].

(** ** More sample data *)

(** A single sample of one feature: too few for a line. *)
Definition Xs : 'M[rat]_(1, 1) := 1%:M.

Definition ys : 'cV[rat]_1 := 1%:M.

(** Another model than the fresh one *)
Definition used : LinearRegressor rat :=
  {| coefficients := Some (Array1 (0 : 'cV[rat]_3)); intercept := Some 1 |}.

(** * Properties *)

Arguments item1 : simpl never.
Arguments item2 : simpl never.
Arguments np_dot22 : simpl never.
Arguments np_dot21 : simpl never.
Arguments np_dot12 : simpl never.
Arguments np_linalg_inv : simpl never.
Arguments getitem0 : simpl never.
Arguments slice_from1 : simpl never.
Arguments cols_from1 : simpl never.
Arguments broadcast1 : simpl never.
Arguments inplace1 : simpl never.
Arguments np_sum : simpl never.
Arguments square1 : simpl never.
Arguments np_mean : simpl never.

Section ShapeLemmas.

Variable F : realFieldType.

Lemma item1_ord (T : Type) (x0 : T) n (v : 'cV[T]_n) (i : 'I_n) :
  item1 x0 (Array1 v) i = v i ord0.
Proof. by rewrite /item1 valK. Qed.

Lemma item2_ord (T : Type) (x0 : T) m p (A : 'M[T]_(m, p)) (i : 'I_m) (j : 'I_p) :
  item2 x0 (Array2 A) i j = A i j.
Proof. by rewrite /item2 !valK. Qed.

Lemma np_dot22E m p k (A : 'M[F]_(m, p)) (B : 'M[F]_(p, k)) :
  np_dot22 (Array2 A) (Array2 B) = Ok (Array2 (A *m B)).
Proof.
rewrite /np_dot22 /ncols /nrows eqxx; congr (Ok (Array2 _)).
by apply/matrixP=> i j; rewrite !mxE; apply: eq_bigr => l _; rewrite /at2 !item2_ord.
Qed.

Lemma np_dot21E m p (A : 'M[F]_(m, p)) (b : 'cV[F]_p) :
  np_dot21 (Array2 A) (Array1 b) = Ok (Array1 (A *m b)).
Proof.
rewrite /np_dot21 /ncols /nrows /len eqxx; congr (Ok (Array1 _)).
apply/matrixP=> i j; rewrite !mxE (ord1 j); apply: eq_bigr => l _.
by rewrite /at2 /at1 item2_ord item1_ord.
Qed.

Lemma np_dot12E m p (a : 'cV[F]_m) (B : 'M[F]_(m, p)) :
  np_dot12 (Array1 a) (Array2 B) = Ok (Array1 (B^T *m a)).
Proof.
rewrite /np_dot12 /ncols /nrows /len eqxx; congr (Ok (Array1 _)).
apply/matrixP=> i j; rewrite !mxE (ord1 j); apply: eq_bigr => l _.
by rewrite /at2 /at1 item2_ord item1_ord !mxE mulrC.
Qed.

Lemma np_linalg_invE n (S : 'M[F]_n) :
  np_linalg_inv (Array2 S) =
  if S \in unitmx then Ok (Array2 (invmx S)) else Raise LinAlgError.
Proof.
rewrite /np_linalg_inv /ncols /nrows eqxx.
have -> : \matrix_(i, j) at2 (Array2 S) i j = S.
  by apply/matrixP=> i j; rewrite mxE /at2 item2_ord.
by [].
Qed.

Lemma getitem0E p (v : 'cV[F]_(1 + p)) :
  getitem0 0 (Array1 v) = Ok (v ord0 ord0).
Proof. by rewrite /getitem0 /len (item1_ord 0 v ord0). Qed.

Lemma slice_from1E p (v : 'cV[F]_(1 + p)) :
  slice_from1 0 (Array1 v) = Array1 (dsubmx v).
Proof.
rewrite /slice_from1 /len; congr Array1.
apply/matrixP=> i j; rewrite !mxE (ord1 j).
by rewrite (item1_ord 0 v (rshift 1 i)).
Qed.

Lemma cols_from1E m p (X : 'M[F]_(m, 1 + p)) :
  cols_from1 0 (Array2 X) = Array2 (rsubmx X).
Proof.
rewrite /cols_from1 /ncols /nrows; congr Array2.
apply/matrixP=> i j; rewrite !mxE.
by rewrite (item2_ord 0 X i (rshift 1 j)).
Qed.

Lemma broadcast1E (op : F -> F -> F) n (u v : 'cV[F]_n) :
  broadcast1 0 op (Array1 u) (Array1 v) =
  Ok (Array1 (\col_i op (u i ord0) (v i ord0))).
Proof.
rewrite /broadcast1 /len eqxx; congr (Ok (Array1 _)).
by apply/matrixP=> i j; rewrite !mxE !item1_ord.
Qed.

Lemma inplace1E (op : F -> F -> F) n (u v : 'cV[F]_n) :
  inplace1 0 op (Array1 u) (Array1 v) =
  Ok (Array1 (\col_i op (u i ord0) (v i ord0))).
Proof.
rewrite /inplace1 /len eqxx; congr (Ok (Array1 _)).
by apply/matrixP=> i j; rewrite !mxE !item1_ord.
Qed.

Lemma col_sub n (u v : 'cV[F]_n) : \col_i (u i ord0 - v i ord0) = u - v.
Proof. by apply/matrixP=> i j; rewrite !mxE (ord1 j). Qed.

Lemma np_sum_square m (e : 'cV[F]_m) :
  np_sum (square1 (Array1 e)) = \sum_i (e i ord0) ^+ 2.
Proof. by rewrite /np_sum /square1; apply: eq_bigr => i _; rewrite mxE. Qed.

Lemma np_mean_square m (e : 'cV[F]_m.+1) :
  np_mean (square1 (Array1 e)) =
  Some (m.+1%:R^-1 * \sum_i (e i ord0) ^+ 2).
Proof.
rewrite /np_mean /square1 /len /np_sum mulrC; congr (Some (_ * _)).
by apply: eq_bigr => i _; rewrite mxE.
Qed.

End ShapeLemmas.

(** ** Least squares *)

Section LeastSquares.

Variable F : realFieldType.

Lemma fit_multipleE m p (Xa : 'M[F]_(m, 1 + p)) (y : 'cV[F]_m) (w : world F) :
  fit_multiple (Array2 Xa) (Array1 y) w =
  if Xa^T *m Xa \in unitmx then
    (Ok tt, World (fitted (invmx (Xa^T *m Xa) *m Xa^T *m y)) (stdout w))
  else (Raise LinAlgError, w).
Proof.
rewrite /fit_multiple /bind /lift /np_transpose np_dot22E np_linalg_invE.
case: ifP => // _.
by rewrite np_dot22E np_dot21E getitem0E slice_from1E.
Qed.

Lemma fit_least_squaresE (g : rng F) m p X (Xm : 'M[F]_(m, p)) (y : 'cV[F]_m)
    (lr : F) (it : nat) (w : world F) :
  features X Xm ->
  fit g X (Array1 y) "least_squares" lr it w =
  if (augmented Xm)^T *m augmented Xm \in unitmx then
    (Ok None, World (fitted (normal_equation Xm y)) (stdout w))
  else (Raise LinAlgError, w).
Proof.
case=> [p' X'|x]; rewrite /fit /= /bind fit_multipleE -/(augmented _);
  by case: ifP.
Qed.


Lemma mulmx_tr_eq0 a b (A : 'M[F]_(a, b)) : A *m A^T = 0 -> A = 0.
Proof.
move=> AA0; apply/matrixP=> i j; rewrite [RHS]mxE.
move: (congr1 (fun B : 'M[F]_a => B i i) AA0); rewrite !mxE => /eqP.
rewrite psumr_eq0 => [k _|]; first by rewrite mxE -expr2 sqr_ge0.
move/allP/(_ j (mem_index_enum _)); rewrite mxE -expr2 sqrf_eq0.
by move/eqP.
Qed.

(** A matrix of full column rank has an invertible Gram matrix. *)
Lemma gram_unitmx m n (A : 'M[F]_(m, n)) :
  \rank A = n -> A^T *m A \in unitmx.
Proof.
move=> rkA; rewrite -row_free_unit -kermx_eq0; apply/eqP.
set K := kermx _.
have KA : K *m A^T *m A = 0 by rewrite -mulmxA mulmx_ker.
have KAt : K *m A^T = 0.
  by apply: mulmx_tr_eq0; rewrite trmx_mul trmxK mulmxA KA mul0mx.
have /row_fullP [B BA] : row_full A by rewrite /row_full rkA.
have AB : A^T *m B^T = 1%:M by rewrite -trmx_mul BA trmx1.
by rewrite -[K]mulmx1 -AB mulmxA KAt mul0mx.
Qed.

Lemma broadcast1_scalar_l (op : F -> F -> F) m (c : 'cV[F]_1) (x : 'cV[F]_m) :
  broadcast1 0 op (Array1 c) (Array1 x) =
  Ok (Array1 (\col_i op (c ord0 ord0) (x i ord0))).
Proof.
rewrite /broadcast1 /len; case: eqP => [E|_]; last first.
  rewrite eqxx; congr (Ok (Array1 _)); apply/matrixP=> i j.
  by rewrite !mxE (item1_ord 0 c ord0) item1_ord.
move: x; case: m / E => x; congr (Ok (Array1 _)); apply/matrixP=> i j.
by rewrite !mxE !item1_ord (ord1 i).
Qed.

Lemma augmented_mul m p (X : 'M[F]_(m, p)) (w : 'cV[F]_(1 + p)) :
  augmented X *m w = X *m dsubmx w + const_mx (w ord0 ord0).
Proof.
rewrite -{1}[w]vsubmxK /augmented mul_row_col addrC; congr (_ + _).
apply/matrixP=> i j; rewrite !mxE big_ord1 !mxE mul1r (ord1 j).
by rewrite lshift0.
Qed.

Lemma predict_fitted m p X (Xm : 'M[F]_(m, p)) (w : 'cV[F]_(1 + p)) out :
  features X Xm ->
  predict X (World (fitted w) out) =
  (Ok (Array1 (augmented Xm *m w)), World (fitted w) out).
Proof.
move=> fX; case: fX w => [p' X'|x] w; rewrite /predict /bind /= /lift.
  by rewrite np_dot21E /= augmented_mul.
rewrite broadcast1_scalar_l /= augmented_mul; congr (Ok (Array1 (_ + _)), _).
apply/matrixP=> i j; rewrite !mxE big_ord1 (ord1 j) mulrC.
by rewrite !mxE.
Qed.

Lemma normal_equation_residual m p (X : 'M[F]_(m, p)) (y : 'cV[F]_m) :
  (augmented X)^T *m augmented X \in unitmx ->
  (augmented X)^T *m (y - augmented X *m normal_equation X y) = 0.
Proof.
move=> U; rewrite mulmxBr /normal_equation !mulmxA mulmxV // mul1mx.
by rewrite subrr.
Qed.

End LeastSquares.

(** ** Gradient descent *)

Section MonadLemmas.

Variable F : realFieldType.

Lemma bind_ok A B (c : M F A) (k : A -> M F B) w a w' :
  c w = (Ok a, w') -> bind c k w = k a w'.
Proof. by rewrite /bind => ->. Qed.

Lemma bind_raise A B (c : M F A) (k : A -> M F B) w e w' :
  c w = (Raise e, w') -> bind c k w = (Raise e, w').
Proof. by rewrite /bind => ->. Qed.

Lemma bind_lift_ok A B (a : A) (k : A -> M F B) w :
  bind (lift (Ok a)) k w = k a w.
Proof. by []. Qed.

Lemma bind_lift_raise A B e (k : A -> M F B) w :
  bind (lift (Raise e)) k w = (Raise e, w).
Proof. by []. Qed.

Lemma bind_ret A B (a : A) (k : A -> M F B) w : bind (ret a) k w = k a w.
Proof. by []. Qed.

Lemma isub_interceptE d c (b : F) out :
  isub_intercept d (World (Regressor c (Some b)) out) =
  (Ok tt, World (Regressor c (Some (b - d))) out).
Proof. by []. Qed.

Lemma isub_coefficientsE n (u v : 'cV[F]_n) b out :
  isub_coefficients (Array1 v) (World (Regressor (Some (Array1 u)) b) out) =
  (Ok tt, World (Regressor (Some (Array1 (u - v))) b) out).
Proof.
rewrite /isub_coefficients /bind /get_coefficients /=.
by rewrite inplace1E col_sub.
Qed.

Lemma predict2E m p (X : 'M[F]_(m, p)) (c : 'cV[F]_p) (b : F) out :
  predict (Nd2 (Array2 X)) (World (Regressor (Some (Array1 c)) (Some b)) out) =
  (Ok (Array1 (X *m c + const_mx b)),
   World (Regressor (Some (Array1 c)) (Some b)) out).
Proof.
rewrite /predict /bind /get_coefficients /get_intercept /=.
by rewrite /lift np_dot21E.
Qed.

Lemma record_epochE m (e : 'cV[F]_m.+1) ms cs bs n (c : 'cV[F]_n) b out :
  record_epoch m.+1 (Array1 e) (ms, cs, bs)
    (World (Regressor (Some (Array1 c)) b) out) =
  (Ok (rcons ms (m.+1%:R^-1 * \sum_i (e i ord0) ^+ 2),
       rcons cs (Array1 c), rcons bs b),
   World (Regressor (Some (Array1 c)) b) out).
Proof. by rewrite /record_epoch /bind /lift /= np_sum_square. Qed.

Lemma when_printE (c : bool) epoch (v : option F) (w : world F) :
  (if c then print epoch v else ret tt) w =
  (Ok tt, World (self w) (if c then rcons (stdout w) (epoch, v) else stdout w)).
Proof. by case: c; case: w. Qed.

Lemma predict_world X (w : world F) : (predict X w).2 = w.
Proof.
case: w => [[c b] out]; rewrite /predict /bind /get_coefficients /=.
case: c => [c|] //; case: b => [b|] //.
by case: X => [x|A]; rewrite /lift;
  [case: (broadcast1 _ _ _ _)|case: (np_dot21 _ _)].
Qed.

Lemma predict_unfitted X (w : world F) :
  coefficients (self w) = None \/ intercept (self w) = None ->
  predict X w = (Raise (ValueError not_fitted_msg), w).
Proof.
case: w => [[c b] out]; rewrite /predict /bind /get_coefficients /=.
by case=> ->; rewrite //; case: c.
Qed.

End MonadLemmas.

Section GradientDescent.

Variable F : realFieldType.

Lemma fitted_step m p lr (Xa : 'M[F]_(m, 1 + p)) y (w : 'cV[F]_(1 + p)) :
  Regressor (Some (Array1 (dsubmx w - lr *: dsubmx (gd_gradient Xa y w))))
            (Some (w ord0 ord0 - lr * gd_gradient Xa y w ord0 ord0)) =
  fitted (gd_step lr Xa y w).
Proof.
rewrite /fitted /gd_step; congr (Regressor (Some (Array1 _)) (Some _)).
  by apply/matrixP=> i j; rewrite !mxE.
by rewrite !mxE.
Qed.

Lemma gd_epochE m p (Xa : 'M[F]_(m, 1 + p)) (y : 'cV[F]_m) lr it epoch h w out :
  gd_epoch (Array2 Xa) (Array1 y) m lr it epoch h (World (fitted w) out) =
  epoch_outcome Xa y lr it epoch h w out.
Proof.
rewrite /gd_epoch /epoch_outcome cols_from1E (bind_ok _ (predict2E _ _ _ _)).
rewrite broadcast1E col_sub -/(gd_error Xa y w) bind_lift_ok.
case: m Xa y => [|m] Xa y; first by [].
rewrite [py_inv _ _]/= bind_lift_ok np_dot12E bind_lift_ok.
rewrite [scale1 _ _]/= -/(gd_gradient Xa y w) getitem0E bind_lift_ok.
rewrite slice_from1E [scale1 _ _]/= (bind_ok _ (isub_interceptE _ _ _ _)).
rewrite (bind_ok _ (isub_coefficientsE _ _ _ _)) fitted_step.
case: (it %/ 10)%N => [|d10]; first by [].
rewrite [py_mod _ _]/= bind_lift_ok np_mean_square -/(gd_mse Xa y w).
rewrite (bind_ok _ (when_printE _ _ _ _)).
case: (it %/ 100)%N => [|d100]; first by [].
rewrite [py_mod _ _]/= bind_lift_ok.
case: h => [[ms cs] bs].
by case: ifP => _; rewrite /fitted record_epochE.
Qed.

Lemma map_iota1 (T : Type) (f : nat -> T) n :
  [seq f i | i <- iota 1 n] = [seq f i.+1 | i <- iota 0 n].
Proof. by rewrite -[1%N]addn0 iotaDl -map_comp. Qed.

Lemma gd_paramsSr m p lr (Xa : 'M[F]_(m, 1 + p)) y w i :
  gd_params lr Xa y (gd_step lr Xa y w) i = gd_params lr Xa y w i.+1.
Proof. by rewrite /gd_params -iterSr. Qed.

Lemma gd_historyS m p lr (Xa : 'M[F]_(m, 1 + p)) y w n ms cs bs :
  (let: (h1, h2, h3) := gd_history lr Xa y (gd_step lr Xa y w) n in
   (rcons ms (gd_mse Xa y w) ++ h1,
    rcons cs (Array1 (dsubmx (gd_step lr Xa y w))) ++ h2,
    rcons bs (Some (gd_step lr Xa y w ord0 ord0)) ++ h3)) =
  let: (k1, k2, k3) := gd_history lr Xa y w n.+1 in
  (ms ++ k1, cs ++ k2, bs ++ k3).
Proof.
have S (T : Type) (f : nat -> T) :
    [seq f i | i <- iota 0 n.+1] = f 0%N :: [seq f i.+1 | i <- iota 0 n].
  by rewrite [LHS]/= map_iota1.
have E1 : [seq gd_mse Xa y (gd_params lr Xa y (gd_step lr Xa y w) i)
          | i <- iota 0 n] =
          [seq gd_mse Xa y (gd_params lr Xa y w i.+1) | i <- iota 0 n].
  by apply: eq_map => i; rewrite gd_paramsSr.
have E2 : [seq Array1 (dsubmx (gd_params lr Xa y (gd_step lr Xa y w) i.+1))
          | i <- iota 0 n] =
          [seq Array1 (dsubmx (gd_params lr Xa y w i.+2)) | i <- iota 0 n].
  by apply: eq_map => i; rewrite gd_paramsSr.
have E3 : [seq Some (gd_params lr Xa y (gd_step lr Xa y w) i.+1 ord0 ord0)
          | i <- iota 0 n] =
          [seq Some (gd_params lr Xa y w i.+2 ord0 ord0) | i <- iota 0 n].
  by apply: eq_map => i; rewrite gd_paramsSr.
by rewrite /gd_history !S E1 E2 E3 !cat_rcons.
Qed.

Lemma gd_reportsS m p lr (Xa : 'M[F]_(m, 1 + p)) y it w k n out :
  (if (k %% (it %/ 10))%N == 0%N
   then rcons out (k, Some (gd_mse Xa y w)) else out)
  ++ gd_reports lr Xa y it (gd_step lr Xa y w) k.+1 n =
  out ++ gd_reports lr Xa y it w k n.+1.
Proof.
rewrite /gd_reports -[n.+1]add1n iotaD add0n filter_cat map_cat.
rewrite -[in iota 1 n](addn0 1%N) iotaDl filter_map -map_comp.
have -> : [seq i <- iota 0 1 | ((k + i) %% (it %/ 10))%N == 0%N] =
          if (k %% (it %/ 10))%N == 0%N then [:: 0%N] else [::].
  by rewrite /= addn0.
have Ef : preim (addn 1) (fun i => ((k + i) %% (it %/ 10))%N == 0%N) =1
          (fun i => ((k.+1 + i) %% (it %/ 10))%N == 0%N).
  by move=> i /=; rewrite add1n addnS addSn.
have Em : (fun i => (k + i, Some (gd_mse Xa y (gd_params lr Xa y w i)))%N)
            \o addn 1 =1
          (fun i => (k.+1 + i, Some (gd_mse Xa y
                      (gd_params lr Xa y (gd_step lr Xa y w) i)))%N).
  by move=> i /=; rewrite add1n addnS addSn gd_paramsSr.
rewrite (eq_filter Ef) (eq_map Em).
by case: ifP => _; rewrite //= -cats1 -catA /= addn0.
Qed.

Lemma epoch_outcome_ok m p (Xa : 'M[F]_(m.+1, 1 + p)) y lr it epoch
    ms cs bs w out :
  (100 <= it)%N ->
  epoch_outcome Xa y lr it epoch (ms, cs, bs) w out =
  (Ok (rcons ms (gd_mse Xa y w),
       rcons cs (Array1 (dsubmx (gd_step lr Xa y w))),
       rcons bs (Some (gd_step lr Xa y w ord0 ord0))),
   World (fitted (gd_step lr Xa y w))
         (if (epoch %% (it %/ 10))%N == 0%N
          then rcons out (epoch, Some (gd_mse Xa y w)) else out)).
Proof.
move=> it100; rewrite /epoch_outcome.
have : (0 < it %/ 100)%N by rewrite divn_gt0.
have : (0 < it %/ 10)%N by rewrite divn_gt0 // (leq_trans _ it100).
by move: (it %/ 10)%N (it %/ 100)%N => [|d10] [|d100].
Qed.

Lemma gd_loop_ok m p (Xa : 'M[F]_(m.+1, 1 + p)) y lr it :
  (100 <= it)%N ->
  forall n k w ms cs bs out,
  for_each (iota k n) (gd_epoch (Array2 Xa) (Array1 y) m.+1 lr it)
    (ms, cs, bs) (World (fitted w) out) =
  (Ok (let: (h1, h2, h3) := gd_history lr Xa y w n in
       (ms ++ h1, cs ++ h2, bs ++ h3)),
   World (fitted (gd_params lr Xa y w n))
         (out ++ gd_reports lr Xa y it w k n)).
Proof.
move=> it100; elim=> [|n IH] k w ms cs bs out.
  by rewrite /gd_history /gd_reports /= !cats0.
rewrite [iota _ _]/= [for_each _ _ _]/= /bind gd_epochE epoch_outcome_ok // IH.
by rewrite gd_historyS gd_paramsSr gd_reportsS.
Qed.

Lemma fitted_start (g : rng F) p :
  Regressor (Some (scale1 100%:R^-1 (Array1 (rand_array g p))))
            (Some (rand_float g * 100%:R^-1)) = fitted (gd_start g p).
Proof.
rewrite /fitted /gd_start col_mxKd; congr (Regressor _ (Some _)).
have -> : (ord0 : 'I_(1 + p)) = lshift p (ord0 : 'I_1) by apply: val_inj.
by rewrite col_mxEu mxE.
Qed.

Lemma fit_gdE (g : rng F) m p X (Xm : 'M[F]_(m, p)) (y : 'cV[F]_m) lr it w :
  features X Xm ->
  fit g X (Array1 y) "gradient_descent" lr it w =
  let: (r, w') :=
    for_each (iota 0 it)
      (gd_epoch (Array2 (augmented Xm)) (Array1 y) m lr it)
      ([::], [::], [::]) (World (fitted (gd_start g p)) (stdout w)) in
  (some_history r, w').
Proof.
case=> [p' X'|x]; rewrite /fit /= /fit_gradient_descent /bind /=;
  rewrite fitted_start -/(augmented _) /len; by case: (for_each _ _ _ _) => [[h|e] w'].
Qed.

Lemma epoch_outcome_fault m p (Xa : 'M[F]_(m, 1 + p)) y lr it epoch h w out :
  (m == 0%N) || (it < 100)%N ->
  (epoch_outcome Xa y lr it epoch h w out).1 = Raise ZeroDivisionError.
Proof.
rewrite /epoch_outcome; case: m Xa y => [|m] Xa y //= it100.
by rewrite (divn_small it100); case: (it %/ 10)%N.
Qed.

Lemma fit_gd_returns (g : rng F) m p X (Xm : 'M[F]_(m, p)) (y : 'cV[F]_m)
    lr it w :
  features X Xm -> gd_returns m it ->
  fit g X (Array1 y) "gradient_descent" lr it w =
  (Ok (Some (gd_history lr (augmented Xm) y (gd_start g p) it)),
   World (fitted (gd_params lr (augmented Xm) y (gd_start g p) it))
         (stdout w ++ gd_reports lr (augmented Xm) y it (gd_start g p) 0 it)).
Proof.
move=> fX; rewrite (fit_gdE g y lr it w fX) /gd_returns.
case/orP=> [/eqP->|/andP[it100]].
  by rewrite /= /gd_reports /= cats0.
case: m Xm y {fX} => [|m] Xm y // _.
by rewrite gd_loop_ok.
Qed.

Lemma fit_gd_faults (g : rng F) m p X (Xm : 'M[F]_(m, p)) (y : 'cV[F]_m)
    lr it w :
  features X Xm -> ~~ gd_returns m it ->
  fit g X (Array1 y) "gradient_descent" lr it w =
  (Raise ZeroDivisionError,
   (epoch_outcome (augmented Xm) y lr it 0 ([::], [::], [::])
      (gd_start g p) (stdout w)).2).
Proof.
move=> fX; rewrite (fit_gdE g y lr it w fX) /gd_returns negb_or negb_and.
case: it => [|it] //= fault.
rewrite /bind gd_epochE.
have {}fault : (m == 0%N) || (it.+1 < 100)%N.
  by move: fault; rewrite -ltnNge -eqn0Ngt orbC.
have := epoch_outcome_fault (augmented Xm) y lr 0 ([::], [::], [::])
          (gd_start g p) (stdout w) fault.
by case: (epoch_outcome _ _ _ _ _ _ _ _) => [r W] /= ->.
Qed.

End GradientDescent.

(** ** Parameters stay set once they are set *)

Section BothSet.

Variable F : realFieldType.

Lemma preserves_bind P A B (c : M F A) (k : A -> M F B) :
  preserves P c -> (forall a, preserves P (k a)) -> preserves P (bind c k).
Proof.
move=> Pc Pk w Pw; rewrite /bind; move: (Pc w Pw).
by case: (c w) => [[a|e] w'] //=; apply: Pk.
Qed.

Lemma preserves_pure P A (r : result A) : preserves P (@lift F A r).
Proof. by move=> w. Qed.

Lemma preserves_ret P A (a : A) : preserves P (@ret F A a).
Proof. by move=> w. Qed.

Lemma preserves_raise P A e : preserves P (@raise F A e).
Proof. by move=> w. Qed.

Lemma preserves_get_coefficients P : preserves P (@get_coefficients F).
Proof. by move=> w. Qed.

Lemma preserves_get_intercept P : preserves P (@get_intercept F).
Proof. by move=> w. Qed.

Lemma preserves_set_coefficients c : preserves (@both_set F) (set_coefficients c).
Proof. by move=> [[c0 b0] out] /andP[_ bS]; rewrite /both_set /= bS. Qed.

Lemma preserves_set_intercept b : preserves (@both_set F) (set_intercept b).
Proof. by move=> [[c0 b0] out] /andP[cS _]; rewrite /both_set /= cS. Qed.

Lemma preserves_print epoch v : preserves (@both_set F) (print epoch v).
Proof. by move=> w. Qed.

Lemma preserves_predict P X : preserves P (@predict F X).
Proof. by move=> w; rewrite predict_world. Qed.

Lemma preserves_isub_intercept d : preserves (@both_set F) (isub_intercept d).
Proof.
apply: preserves_bind; first exact: preserves_get_intercept.
by case=> [b|]; [apply: preserves_set_intercept|apply: preserves_raise].
Qed.

Lemma preserves_isub_coefficients d :
  preserves (@both_set F) (isub_coefficients d).
Proof.
apply: preserves_bind; first exact: preserves_get_coefficients.
case=> [c|]; last exact: preserves_raise.
apply: preserves_bind; first exact: preserves_pure.
by move=> c'; apply: preserves_set_coefficients.
Qed.

Lemma preserves_record_epoch P m e h : preserves P (@record_epoch F m e h).
Proof.
case: h => [[ms cs] bs]; apply: preserves_bind; first exact: preserves_pure.
move=> inv_m; apply: preserves_bind; first exact: preserves_get_coefficients.
case=> [c|]; last exact: preserves_raise.
apply: preserves_bind; first exact: preserves_get_intercept.
by move=> b; apply: preserves_ret.
Qed.

Lemma preserves_gd_epoch X y m lr it epoch h :
  preserves (@both_set F) (gd_epoch X y m lr it epoch h).
Proof.
apply: preserves_bind => [|predictions]; first exact: preserves_predict.
apply: preserves_bind => [|error]; first exact: preserves_pure.
apply: preserves_bind => [|inv_m]; first exact: preserves_pure.
apply: preserves_bind => [|d]; first exact: preserves_pure.
apply: preserves_bind => [|g0]; first exact: preserves_pure.
apply: preserves_bind => [|_]; first exact: preserves_isub_intercept.
apply: preserves_bind => [|_]; first exact: preserves_isub_coefficients.
apply: preserves_bind => [|r10]; first exact: preserves_pure.
apply: preserves_bind => [|_].
  by case: ifP => _; [apply: preserves_print|apply: preserves_ret].
apply: preserves_bind => [|r100]; first exact: preserves_pure.
by case: ifP => _; apply: preserves_record_epoch.
Qed.

Lemma preserves_for_each P A S (xs : seq A) (body : A -> S -> M F S) s :
  (forall x s', preserves P (body x s')) -> preserves P (for_each xs body s).
Proof.
move=> Pbody; elim: xs s => [|x xs IH] s /=; first exact: preserves_ret.
by apply: preserves_bind.
Qed.

(** A call of [fit_multiple] that raises has assigned nothing. *)
Lemma fit_multiple_raise X y (w : world F) e w' :
  fit_multiple X y w = (Raise e, w') -> w' = w.
Proof.
rewrite /fit_multiple /bind /lift.
case: (np_dot22 _ _) => [XtX|?]; last by case.
case: (np_linalg_inv _) => [w1|?]; last by case.
case: (np_dot22 _ _) => [w2|?]; last by case.
case: (np_dot21 _ _) => [wv|?]; last by case.
by case: (getitem0 _ _) => [w0|?]; last by case.
Qed.

(** A call of [fit_multiple] that returns has assigned both parameters. *)
Lemma fit_multiple_ok X y (w : world F) r w' :
  fit_multiple X y w = (Ok r, w') -> both_set w'.
Proof.
rewrite /fit_multiple /bind /lift.
case: (np_dot22 _ _) => [XtX|?] //.
case: (np_linalg_inv _) => [w1|?] //.
case: (np_dot22 _ _) => [w2|?] //.
case: (np_dot21 _ _) => [wv|?] //.
by case: (getitem0 _ _) => [w0|?] // [_ <-].
Qed.

(** A call of [fit_gradient_descent] that returns leaves both set. *)
Lemma fit_gradient_descent_ok g X y lr it (w : world F) r w' :
  fit_gradient_descent g X y lr it w = (Ok r, w') -> both_set w'.
Proof.
rewrite /fit_gradient_descent /bind; case: (ncols X) => [|p] //=.
set w1 := World _ _ => E.
have := @preserves_for_each (@both_set F) _ _ (iota 0 it)
  (gd_epoch X y (len y) lr it) ([::], [::], [::])
  (fun x s' => preserves_gd_epoch X y (len y) lr it x s') w1 isT.
by rewrite E.
Qed.

End BothSet.

(** ** One-hot encoding *)

Arguments np_delete_col : simpl never.
Arguments getcol : simpl never.
Arguments np_unique : simpl never.
Arguments np_array : simpl never.
Arguments nd_cols_from1 : simpl never.
Arguments np_concatenate1 : simpl never.
Arguments row_of : simpl never.

Section OneHotProps.

Variable T : eqType.
Variable leT : rel T.
Variable of_int : nat -> T.

Local Abbreviation x0 := (of_int 0).

Lemma item2_nat (E : Type) (e0 : E) m p (M : 'M[E]_(m, p)) i j
    (Hi : (i < m)%N) (Hj : (j < p)%N) :
  item2 e0 (Array2 M) i j = M (Ordinal Hi) (Ordinal Hj).
Proof. by rewrite /item2 !insubT. Qed.

Lemma item1_nat (E : Type) (e0 : E) n (v : 'cV[E]_n) i (Hi : (i < n)%N) :
  item1 e0 (Array1 v) i = v (Ordinal Hi) ord0.
Proof. by rewrite /item1 insubT. Qed.

Lemma row_of_delete m p (M : 'M[T]_(m, p)) c :
  (c < p)%N ->
  exists A1,
    [/\ np_delete_col (Array2 M) c = Ok A1, nrows A1 = m, ncols A1 = p.-1
      & forall i, (i < m)%N ->
        row_of of_int A1 i = del_at c (row_of of_int (Array2 M) i)].
Proof.
case: p M => [|p] M // cp; rewrite /np_delete_col insubT.
exists (Array2 (col' (Ordinal cp) M)); split=> // i im.
rewrite /row_of /del_at /ncols -map_take -map_drop take_iota drop_iota /=.
have -> : iota 0 p = iota 0 c ++ iota c (p - c).
  by rewrite -[c in iota c _]add0n -iotaD subnKC.
rewrite (minn_idPl (ltnW cp)) add0n map_cat subSS.
rewrite -[c.+1]add1n iotaDl -map_comp.
congr (_ ++ _); apply/eq_in_map=> k; rewrite mem_iota.
  rewrite add0n => /andP[_ kc].
  have kp1 : (k < p)%N by apply: leq_trans kc cp.
  have kp : (k < p.+1)%N by apply: ltn_trans kc cp.
  rewrite (item2_nat _ _ im kp1) (item2_nat _ _ im kp) mxE.
  by congr (M _ _); apply: val_inj; rewrite /= /bump leqNgt kc.
rewrite subnKC // => /andP[ck kp1].
have kp : (k.+1 < p.+1)%N by [].
rewrite /= add1n (item2_nat _ _ im kp1) (item2_nat _ _ im kp) mxE.
by congr (M _ _); apply: val_inj; rewrite /= /bump ck.
Qed.

(** The first loop: the categorical columns leave, largest index first. *)
Lemma delete_loop (l : seq nat) (A : array2 T) :
  sorted gtn l -> all (fun c => c < ncols A)%N l ->
  exists A',
    [/\ rfold l (fun index Xt => np_delete_col Xt index) A = Ok A',
        nrows A' = nrows A, ncols A' = (ncols A - size l)%N
      & forall i, (i < nrows A)%N ->
        row_of of_int A' i =
        foldl (fun r c => del_at c r) (row_of of_int A i) l].
Proof.
elim: l A => [|c l IH] A /=; first by exists A; rewrite subn0.
move=> pcl /andP[cA lA]; case: A cA lA => m p M /= cp lA.
have [A1 [-> rA1 cA1 rowA1]] := row_of_delete M cp.
have lc : all (gtn c) l by apply: order_path_min pcl => x y z /= /[swap]; apply: ltn_trans.
have lA1 : all (fun c0 => c0 < ncols A1)%N l.
  apply: sub_all lc => k /= kc; rewrite cA1.
  by rewrite -ltnS prednK ?(leq_ltn_trans _ cp) // (leq_trans kc).
have [A' [E rA' cA' rowA']] := IH A1 (path_sorted pcl) lA1.
exists A'; rewrite /= E rA' rA1 cA' cA1; split=> //.
  by case: p {M lA rowA1 cA1 lA1} cp => [|p] //= _; rewrite subSS.
by move=> i im; rewrite rowA' ?rA1 // rowA1.
Qed.

Lemma np_array_regular (values : seq (seq nat)) u :
  (0 < size values)%N -> all (fun r => size r == u) values ->
  exists O,
    [/\ np_array values = Nd2 O, nrows O = size values, ncols O = u
      & forall i j, (i < size values)%N -> (j < u)%N ->
        item2 0%N O i j = nth 0%N (nth [::] values i) j].
Proof.
case: values => [|row0 rest] //= _ /andP[/eqP <- _]; rewrite /np_array.
eexists; split; [reflexivity|by []|by []|move=> i j Hi Hj].
by rewrite (item2_nat _ _ Hi Hj) mxE.
Qed.

Lemma cols_from1_item (E : Type) (e0 : E) (A : array2 E) i j :
  (i < nrows A)%N -> (j < (ncols A).-1)%N ->
  item2 e0 (cols_from1 e0 A) i j = item2 e0 A i j.+1.
Proof. by move=> Hi Hj; rewrite /cols_from1 (item2_nat _ _ Hi Hj) mxE. Qed.

Lemma np_concatenate1_rows (O : array2 nat) (B : array2 T) :
  nrows O = nrows B ->
  exists out,
    [/\ np_concatenate1 of_int (Nd2 O) B = Ok out, nrows out = nrows B,
        ncols out = (ncols O + ncols B)%N
      & forall i, (i < nrows B)%N ->
        row_of of_int out i =
        [seq of_int (item2 0%N O i j) | j <- iota 0 (ncols O)]
        ++ row_of of_int B i].
Proof.
move=> rows; rewrite /np_concatenate1 rows eqxx.
eexists; split; [reflexivity|by []|by []|move=> i Hi].
rewrite /row_of [ncols (Array2 _)]/= iotaD map_cat add0n.
have -> : iota (ncols O) (ncols B) = map (addn (ncols O)) (iota 0 (ncols B)).
  by rewrite -iotaDl addn0.
rewrite -map_comp.
congr (_ ++ _); apply/eq_in_map=> k; rewrite mem_iota add0n => /andP[_ Hk].
  have Hk' : (k < ncols O + ncols B)%N by apply: leq_trans Hk (leq_addr _ _).
  by rewrite (item2_nat _ _ Hi Hk') mxE /= Hk.
have Hk' : (ncols O + k < ncols O + ncols B)%N by rewrite ltn_add2l.
by rewrite /= (item2_nat _ _ Hi Hk') mxE /= ltnNge leq_addr /= addKn.
Qed.

Lemma np_unique_column m p (M : 'M[T]_(m, p)) c (cp : (c < p)%N) :
  np_unique leT of_int (Array1 (col (Ordinal cp) M)) =
  sort leT (undup (column of_int (Array2 M) c)).
Proof.
rewrite /np_unique /column; congr (sort _ (undup _)).
apply/eq_in_map=> i; rewrite mem_iota add0n => /andP[_ im].
by rewrite (item1_nat _ _ im) (item2_nat _ _ im cp) mxE.
Qed.

Lemma row_of_nth m p (M : 'M[T]_(m, p)) i c :
  (c < p)%N -> nth x0 (row_of of_int (Array2 M) i) c = item2 x0 (Array2 M) i c.
Proof. by move=> cp; rewrite /row_of (nth_map 0%N) ?size_iota // nth_iota. Qed.

(** One pass of the second loop *)
Lemma encode_column_rows m p (M : 'M[T]_(m, p)) d c Xt :
  (0 < m)%N -> (c < p)%N -> nrows Xt = m ->
  exists Xt',
    [/\ encode_column leT of_int (Array2 M) d c Xt = Ok Xt', nrows Xt' = m,
        ncols Xt' = (unique_count of_int (Array2 M) c - d + ncols Xt)%N
      & forall i, (i < m)%N ->
        row_of of_int Xt' i =
        indicators leT of_int (Array2 M) d c
          (nth x0 (row_of of_int (Array2 M) i) c)
        ++ row_of of_int Xt i].
Proof.
move=> m0 cp rXt; rewrite /encode_column /getcol insubT /rbind /len.
rewrite np_unique_column; set uvals := sort _ _.
set values := map _ (iota 0 m).
have sv : size values = m by rewrite size_map size_iota.
have rv : all (fun r => size r == size uvals) values.
  by apply/allP=> r /mapP[i _ ->]; rewrite size_map.
have sv0 : (0 < size values)%N by rewrite sv.
have [O [-> rO cO itemO]] := np_array_regular sv0 rv.
pose O' (b : bool) := if b then cols_from1 0%N O else O.
have -> : (if d then nd_cols_from1 (Nd2 O) else Ok (Nd2 O)) = Ok (Nd2 (O' d)).
  by case: (d).
have rO' b : nrows (O' b) = nrows Xt by rewrite rXt -sv -rO; case: b.
have cO' b : ncols (O' b) = (size uvals - b)%N.
  by rewrite -cO; case: b; rewrite /= ?subn1 ?subn0.
have itemO' (b : bool) k j : (k < m)%N -> (j < size uvals - b)%N ->
    item2 0%N (O' b) k j = nth 0%N (nth [::] values k) (b + j).
  case: b => Hk Hj.
    rewrite subn1 in Hj; rewrite cols_from1_item ?rO ?sv ?cO //.
    by rewrite itemO ?sv // -ltn_predRL.
  by rewrite subn0 in Hj; rewrite itemO ?sv.
have [Xt' [-> rXt' cXt' rowXt']] := np_concatenate1_rows (rO' d).
exists Xt'; split=> //.
- by rewrite rXt'.
- by rewrite cXt' cO' /unique_count /uvals size_sort.
move=> i im; rewrite rowXt' ?rXt //; congr (_ ++ _).
rewrite cO' /indicators row_of_nth // -/uvals.
apply: (@eq_from_nth _ x0); rewrite !size_map size_iota ?size_drop // => j Hj.
have Hdj : (d + j < size uvals)%N by rewrite -ltn_subRL.
rewrite (nth_map 0%N) ?size_iota // nth_iota // add0n itemO' //.
rewrite (nth_map x0) ?size_drop // nth_drop.
rewrite /values (nth_map 0%N) ?size_iota // nth_iota // add0n (nth_map x0) //.
rewrite (item1_nat _ _ im) (item2_nat _ _ im cp) mxE.
by case: (_ == _).
Qed.

(** The second loop *)
Lemma encode_loop m p (M : 'M[T]_(m, p)) d (l : seq nat) :
  (0 < m)%N -> all (fun c => c < p)%N l ->
  forall Xt, nrows Xt = m ->
  exists out,
    [/\ rfold l (encode_column leT of_int (Array2 M) d) Xt = Ok out,
        nrows out = m,
        ncols out =
          (\sum_(c <- l) (unique_count of_int (Array2 M) c - d) + ncols Xt)%N
      & forall i, (i < m)%N ->
        row_of of_int out i =
        flatten [seq indicators leT of_int (Array2 M) d c
                       (nth x0 (row_of of_int (Array2 M) i) c)
                | c <- rev l]
        ++ row_of of_int Xt i].
Proof.
move=> m0; elim: l => [|c l IH] /=.
  by move=> _ Xt rXt; exists Xt; rewrite big_nil.
move=> /andP[cp lp] Xt rXt.
have [Xt1 [E1 r1 c1 row1]] := encode_column_rows M d m0 cp rXt.
have [out [E r' c' row']] := IH lp Xt1 r1.
exists out; rewrite E1 /= E; split=> //.
  by rewrite c' c1 big_cons addnCA addnA.
move=> i im; rewrite row' // row1 // rev_cons map_rcons flatten_rcons.
by rewrite catA.
Qed.

Lemma sorted_gtn_sort (s : seq nat) : uniq s -> sorted gtn (sort geq s).
Proof.
move=> us; rewrite -[sort _ _]revK rev_sorted.
rewrite [sorted _ _](_ : _ = sorted ltn (rev (sort geq s))) //.
rewrite ltn_sorted_uniq_leq rev_uniq sort_uniq us /=.
rewrite rev_sorted; apply: sort_sorted => x y; exact: leq_total.
Qed.

Lemma unique_count_gt0 m p (M : 'M[T]_(m, p)) c :
  (0 < m)%N -> (0 < unique_count of_int (Array2 M) c)%N.
Proof.
move=> m0; rewrite /unique_count /column lt0n size_eq0; apply/eqP=> /undup_nil.
by move/(congr1 size); rewrite size_map size_iota /= => m00; rewrite m00 in m0.
Qed.

End OneHotProps.

(** ** Sample data: facts *)

Section SampleData.

Lemma augmented_X0_unit : augmented X0 \in unitmx.
Proof.
have -> : augmented X0 = block_mx 1%:M 0 1%:M 1%:M.
  rewrite /augmented /X0 block_mxEh; congr (row_mx _ _).
  apply/matrixP=> i j; rewrite !mxE; case: splitP => k _;
    by rewrite !mxE !ord1.
by rewrite unitmxE det_lblock !det1 mulr1 unitr1.
Qed.

Lemma gram_X0_unit : (augmented X0)^T *m augmented X0 \in unitmx.
Proof. by rewrite unitmx_mul unitmx_tr augmented_X0_unit. Qed.

Lemma rank_X0 : \rank (augmented X0) = (1 + 1)%N.
Proof. exact: mxrank_unit augmented_X0_unit. Qed.

End SampleData.

(** ** The sample data, evaluated *)

Arguments column : simpl never.

Section Evaluated.

Lemma augmented_X0_mul (u v : rat) :
  augmented X0 *m col_mx u%:M v%:M = col_mx u%:M (u + v)%:M.
Proof.
have -> : augmented X0 = block_mx 1%:M 0 1%:M 1%:M.
  rewrite /augmented /X0 block_mxEh; congr (row_mx _ _).
  apply/matrixP=> i j; rewrite !mxE; case: splitP => k _;
    by rewrite !mxE !ord1.
by rewrite mul_block_col !mul1mx mul0mx addr0 -raddfD.
Qed.

(** The least-squares line through (0, 1) and (1, 3) is [1 + 2 x]. *)
Lemma normal_equation_X0 :
  normal_equation X0 y0 = col_mx 1%:M (2%:R)%:M.
Proof.
rewrite /normal_equation -mulmxA.
have -> : y0 = augmented X0 *m col_mx 1%:M (2%:R)%:M.
  by rewrite augmented_X0_mul /y0 [3%:R](natrD _ 1 2).
by rewrite (mulmxA (augmented X0)^T) mulKmx // gram_X0_unit.
Qed.

Lemma column_D0 : column id (Array2 D0) 0 = [:: 0; 1; 0]%N.
Proof.
rewrite /column /=.
rewrite (item2_nat _ _ (isT : (0 < 3)%N) (isT : (0 < 2)%N)).
rewrite (item2_nat _ _ (isT : (1 < 3)%N) (isT : (0 < 2)%N)).
rewrite (item2_nat _ _ (isT : (2 < 3)%N) (isT : (0 < 2)%N)).
by rewrite !mxE.
Qed.

Lemma rows_of_D0 :
  rows_of id (Array2 D0) = [:: [:: 0; 1]; [:: 1; 2]; [:: 0; 3]]%N.
Proof.
rewrite /rows_of /row_of /=.
rewrite (item2_nat _ _ (isT : (0 < 3)%N) (isT : (0 < 2)%N)).
rewrite (item2_nat _ _ (isT : (0 < 3)%N) (isT : (1 < 2)%N)).
rewrite (item2_nat _ _ (isT : (1 < 3)%N) (isT : (0 < 2)%N)).
rewrite (item2_nat _ _ (isT : (1 < 3)%N) (isT : (1 < 2)%N)).
rewrite (item2_nat _ _ (isT : (2 < 3)%N) (isT : (0 < 2)%N)).
rewrite (item2_nat _ _ (isT : (2 < 3)%N) (isT : (1 < 2)%N)).
by rewrite !mxE.
Qed.

Lemma encode_rows_D0 :
  [seq encode_row leq id (Array2 D0) [:: 0%N] false r
  | r <- rows_of id (Array2 D0)] =
  [:: [:: 1; 0; 1]; [:: 0; 1; 2]; [:: 1; 0; 3]]%N.
Proof.
have s0 : sort geq [:: 0%N] = [:: 0%N] by [].
by rewrite rows_of_D0 /encode_row s0 /rev /= /indicators column_D0.
Qed.

End Evaluated.

(** ** The claims *)

Section RegressorClaims.

Variable F : realFieldType.

(** C1.  Least-squares fit computes the solution [w] of the normal
    equation over the bias-augmented matrix (a one-dimensional [X] read as
    one column) and stores [intercept = w[0]], [coefficients = w[1:]],
    when the Gram matrix of the augmented matrix is invertible. *)
Theorem fit_least_squares_normal_equation (g : rng F) m p (X : ndarray F)
    (Xm : 'M[F]_(m, p)) (y : 'cV[F]_m) (lr : F) (it : nat) (w : world F) :
  features X Xm ->
  (augmented Xm)^T *m augmented Xm \in unitmx ->
  let wv := invmx ((augmented Xm)^T *m augmented Xm)
            *m (augmented Xm)^T *m y in
  fit g X (Array1 y) "least_squares" lr it w =
  (Ok None,
   World {| coefficients := Some (Array1 (dsubmx wv));
            intercept := Some (wv ord0 ord0) |} (stdout w)).
Proof. by move=> fX U; rewrite (fit_least_squaresE g y lr it w fX) U. Qed.




(** C4.  After a least-squares fit on data whose augmented matrix has
    full column rank, the residuals [y - predict(X)] sum to zero and are
    orthogonal to every feature column of [X]. *)
Theorem least_squares_residuals_orthogonal (g : rng F) m p (X : ndarray F)
    (Xm : 'M[F]_(m, p)) (y : 'cV[F]_m) (lr : F) (it : nat) (w : world F) :
  features X Xm ->
  \rank (augmented Xm) = (1 + p)%N ->
  exists (w' : world F) (yhat : 'cV[F]_m),
    [/\ fit g X (Array1 y) "least_squares" lr it w = (Ok None, w'),
        predict X w' = (Ok (Array1 yhat), w'),
        \sum_i (y i ord0 - yhat i ord0) = 0
      & forall j, \sum_i (y i ord0 - yhat i ord0) * Xm i j = 0].
Proof.
move=> fX rkX; have U := gram_unitmx rkX.
exists (World (fitted (normal_equation Xm y)) (stdout w)).
exists (augmented Xm *m normal_equation Xm y).
have R := normal_equation_residual y U.
split.
- by rewrite (fit_least_squaresE g y lr it w fX) U.
- exact: predict_fitted.
- have := congr1 (fun v : 'cV[F]_(1 + p) => v (lshift p ord0) ord0) R.
  rewrite !mxE => E; rewrite -[RHS]E; apply: eq_bigr => i _.
  by rewrite [_^T _ _]mxE {1}/augmented row_mxEl [const_mx _ _ _]mxE mul1r !mxE.
- move=> j.
  have := congr1 (fun v : 'cV[F]_(1 + p) => v (rshift 1 j) ord0) R.
  rewrite !mxE => E; rewrite -[RHS]E; apply: eq_bigr => i _.
  by rewrite [_^T _ _]mxE {1}/augmented row_mxEr mulrC !mxE.
Qed.

(** C5.  [fit] with a method other than the two it knows raises
    [ValueError] whatever the data are, and leaves the model as it was. *)
Theorem fit_rejects_unknown_method (g : rng F) (X : ndarray F) (y : array1 F)
    (method : string) (lr : F) (it : nat) (w : world F) :
  method <> "least_squares"%string ->
  method <> "gradient_descent"%string ->
  fit g X y method lr it w = (Raise (ValueError (method_msg method)), w).
Proof.
by move=> /String.eqb_neq E1 /String.eqb_neq E2; rewrite /fit E1 E2.
Qed.

(** C6.  [predict] on a model whose coefficients or intercept is unset
    raises [ValueError]; and [predict] never changes the model. *)
Theorem predict_requires_fitted_model (X : ndarray F) (w : world F) :
  (coefficients (self w) = None \/ intercept (self w) = None ->
   predict X w = (Raise (ValueError not_fitted_msg), w))
  /\ (predict X w).2 = w.
Proof. by split; [apply: predict_unfitted|apply: predict_world]. Qed.

(** C7, as the code has it.  With 1 to 9 iterations gradient descent
    raises [ZeroDivisionError] in its first epoch: at [1 / m] when [y] is
    empty, else at [epoch % (iterations // 10)], after the parameters were
    initialised and updated once and before anything is printed. *)
Theorem gd_diagnostic_cadence_fault (g : rng F) m p (X : ndarray F)
    (Xm : 'M[F]_(m, p)) (y : 'cV[F]_m) (lr : F) (it : nat) (w : world F) :
  features X Xm -> (0 < it)%N -> (it < 10)%N ->
  fit g X (Array1 y) "gradient_descent" lr it w =
  (Raise ZeroDivisionError,
   World (fitted (if m is 0%N then gd_start g p
                  else gd_step lr (augmented Xm) y (gd_start g p)))
         (stdout w)).
Proof.
move=> fX it0 it10.
have R : ~~ gd_returns m it.
  by rewrite /gd_returns negb_or -lt0n it0 negb_and -ltnNge (ltn_trans it10).
rewrite (fit_gd_faults g y lr w fX R) /epoch_outcome.
by case: m Xm y {fX R} => [|m] Xm y //; rewrite (divn_small it10).
Qed.

(** C8, as the code has it.  A call of [fit] that fails on the method
    name, or anywhere in the least-squares path, leaves intercept and
    coefficients as they were; a call that returns leaves both set. *)
Theorem fit_failure_and_success (g : rng F) (X : ndarray F) (y : array1 F)
    (method : string) (lr : F) (it : nat) (w : world F) :
  let r := fit g X y method lr it w in
  [/\ method <> "least_squares"%string ->
      method <> "gradient_descent"%string -> r.2 = w,
      method = "least_squares"%string ->
      forall e, r.1 = Raise e -> r.2 = w
    & forall v, r.1 = Ok v -> both_set r.2].
Proof.
split.
- by move=> /String.eqb_neq E1 /String.eqb_neq E2; rewrite /fit E1 E2.
- move=> -> e; rewrite /fit /= /bind.
  case E: (fit_multiple _ _ _) => [[u|e'] w'] //= _.
  exact: fit_multiple_raise E.
- move=> v; rewrite /fit.
  case: (String.eqb method "least_squares") => /=.
    rewrite /bind; case E: (fit_multiple _ _ _) => [[u|e'] w'] //= _.
    exact: fit_multiple_ok E.
  case: (String.eqb method "gradient_descent") => //=.
  rewrite /bind; case E: (fit_gradient_descent _ _ _ _ _ _) => [[u|e'] w'] //= _.
  exact: fit_gradient_descent_ok E.
Qed.

(** C10.  With 10 to 99 iterations gradient descent raises
    [ZeroDivisionError] in its first epoch: the report of epoch 0 has been
    printed, so the fault is past [epoch % (iterations // 10)], at
    [epoch % (iterations // 100)]; and among the calls with at least 10
    iterations only those with at least 100 return. *)
Theorem gd_history_cadence_fault (g : rng F) m p (X : ndarray F)
    (Xm : 'M[F]_(m, p)) (y : 'cV[F]_m) (lr : F) (it : nat) (w : world F) :
  features X Xm -> (10 <= it)%N ->
  ((it < 100)%N ->
   fit g X (Array1 y) "gradient_descent" lr it w =
   (Raise ZeroDivisionError,
    if m is 0%N then World (fitted (gd_start g p)) (stdout w)
    else World (fitted (gd_step lr (augmented Xm) y (gd_start g p)))
               (rcons (stdout w)
                  (0%N, Some (gd_mse (augmented Xm) y (gd_start g p))))))
  /\ (forall r w',
        fit g X (Array1 y) "gradient_descent" lr it w = (Ok r, w') ->
        (100 <= it)%N).
Proof.
move=> fX it10; split.
  move=> it100.
  have R : ~~ gd_returns m it.
    by rewrite /gd_returns negb_or -lt0n (leq_trans _ it10) // negb_and -ltnNge it100.
  rewrite (fit_gd_faults g y lr w fX R) /epoch_outcome.
  case: m Xm y {fX R} => [|m] Xm y //.
  have : (0 < it %/ 10)%N by rewrite divn_gt0.
  by rewrite (divn_small it100) mod0n; case: (it %/ 10)%N.
move=> r w'; case R: (gd_returns m it); last first.
  by rewrite (fit_gd_faults g y lr w fX (negbT R)).
move: R; rewrite /gd_returns => /orP[/eqP it0|/andP[]//].
by move: it10; rewrite it0.
Qed.

End RegressorClaims.

Section EncoderClaims.

Variable T : eqType.
Variable leT : rel T.
Variable of_int : nat -> T.

(** C9, as the code has it.  On a matrix with at least one row and a
    duplicate-free list of column indices in range, [one_hot_encode]
    returns a matrix with the rows of [X] in their order, each encoded on
    its own, and with as many columns as the other columns of [X] plus,
    for each categorical column, its number of distinct values (less one
    with [drop_first]). *)
Theorem one_hot_encode_shape (X : array2 T) (cats : seq nat) (d : bool) :
  (0 < nrows X)%N -> uniq cats -> all (fun c => c < ncols X)%N cats ->
  exists out,
    [/\ one_hot_encode leT of_int X cats d = Ok out,
        nrows out = nrows X,
        ncols out = (ncols X - size cats
                     + \sum_(c <- cats) (unique_count of_int X c - d))%N,
        forall c, (d <= unique_count of_int X c)%N
      & rows_of of_int out =
        [seq encode_row leT of_int X cats d r | r <- rows_of of_int X]].
Proof.
case: X => m p M /= m0 ucats pcats; rewrite /one_hot_encode.
have sl := sorted_gtn_sort ucats.
have pl : all (fun c => c < ncols (Array2 M))%N (sort geq cats).
  by rewrite all_sort.
have [Xt [-> rXt cXt rowXt]] := @delete_loop _ of_int _ _ sl pl.
have [out [E rout cout rowout]] :=
  @encode_loop _ leT of_int _ _ M d _ m0 pl _ rXt.
exists out; rewrite /= E; split=> //.
- rewrite cout cXt size_sort addnC; congr (_ + _)%N.
  by apply/perm_big/permPl/perm_sort.
- by move=> c; apply: leq_trans (@unique_count_gt0 _ of_int _ _ M c m0); case: (d).
rewrite /rows_of rout -map_comp; apply/eq_in_map=> i.
rewrite mem_iota add0n => /andP[_ im].
by rewrite rowout // rowXt.
Qed.

End EncoderClaims.

(** ** The claims on the sample data *)

Lemma fit_least_squares_normal_equation_witness :
  fit rng0 (Nd2 (Array2 X0)) (Array1 y0) "least_squares" 100%:R^-1 1000 fresh =
  (Ok None,
   World {| coefficients := Some (Array1 (2%:R)%:M);
            intercept := Some 1 |} [::]).
Proof.
rewrite (fit_least_squares_normal_equation rng0 y0 100%:R^-1 1000 fresh
           (features2 X0) gram_X0_unit).
rewrite -/(normal_equation X0 y0) normal_equation_X0 col_mxKd.
have -> : (ord0 : 'I_(1 + 1)) = lshift 1 (ord0 : 'I_1) by apply: val_inj.
by rewrite col_mxEu mxE.
Defined.





Lemma least_squares_residuals_orthogonal_witness :
  exists (w' : world rat) (yhat : 'cV[rat]_(1 + 1)),
    [/\ fit rng0 (Nd2 (Array2 X0)) (Array1 y0) "least_squares" 100%:R^-1 1000
          fresh = (Ok None, w'),
        predict (Nd2 (Array2 X0)) w' = (Ok (Array1 yhat), w'),
        \sum_i (y0 i ord0 - yhat i ord0) = 0
      & forall j, \sum_i (y0 i ord0 - yhat i ord0) * X0 i j = 0].
Proof.
exact: (least_squares_residuals_orthogonal rng0 y0 100%:R^-1 1000 fresh
          (features2 X0) rank_X0).
Defined.

Lemma fit_rejects_unknown_method_witness :
  fit rng0 (Nd2 (Array2 X0)) (Array1 y0) "ridge" 100%:R^-1 1000 fresh =
  (Raise (ValueError (method_msg "ridge")), fresh).
Proof.
by apply: fit_rejects_unknown_method.
Defined.

Lemma predict_requires_fitted_model_witness :
  predict (Nd2 (Array2 X0)) fresh = (Raise (ValueError not_fitted_msg), fresh).
Proof.
have [H _] := predict_requires_fitted_model (Nd2 (Array2 X0)) fresh.
by apply: H; left.
Defined.

(** C7, as stated, fails without any iteration to run: the call returns
    three empty histories. *)
Lemma gd_zero_iterations_returns :
  (0 < 10)%N /\
  fit rng0 (Nd2 (Array2 X0)) (Array1 y0) "gradient_descent" 100%:R^-1 0 fresh =
  (Ok (Some ([::], [::], [::])), World (fitted (gd_start rng0 1)) [::]).
Proof.
split=> //.
by rewrite (fit_gd_returns rng0 y0 100%:R^-1 fresh (features2 X0)).
Qed.

Lemma gd_diagnostic_cadence_fault_witness :
  fit rng0 (Nd2 (Array2 X0)) (Array1 y0) "gradient_descent" 100%:R^-1 9 fresh =
  (Raise ZeroDivisionError,
   World (fitted (gd_step 100%:R^-1 (augmented X0) y0 (gd_start rng0 1))) [::]).
Proof.
by apply: (gd_diagnostic_cadence_fault rng0 y0 100%:R^-1 fresh (features2 X0)).
Defined.

(** C8, as stated, fails on a gradient-descent call that raises: the
    parameters were assigned before the loop and updated in its first
    epoch. *)
Lemma gd_fault_overwrites_parameters :
  let r := fit rng0 (Nd2 (Array2 X0)) (Array1 y0) "gradient_descent"
             100%:R^-1 1 fresh in
  r.1 = Raise ZeroDivisionError /\ self r.2 <> self fresh.
Proof.
move=> r; rewrite {}/r (@fit_gd_faults rat rng0 _ _ _ _ y0 100%:R^-1 1 fresh
                         (features2 X0) isT).
by [].
Qed.

Lemma fit_failure_and_success_witness :
  (fit rng0 (Nd2 (Array2 X0)) (Array1 y0) "ridge" 100%:R^-1 1000 fresh).2
  = fresh.
Proof.
have [H _ _] := fit_failure_and_success rng0 (Nd2 (Array2 X0)) (Array1 y0)
                  "ridge" 100%:R^-1 1000 fresh.
by apply: H.
Defined.

(** C9, as stated, fails on a matrix without rows: [np.array] of the empty
    list of indicator rows is one-dimensional, and neither [[:, 1:]] nor
    the concatenation along axis 1 accepts it. *)
Lemma one_hot_encode_no_rows :
  one_hot_encode leq id (Array2 E0) [:: 0%N] false = Raise NumpyValueError
  /\ one_hot_encode leq id (Array2 E0) [:: 0%N] true = Raise IndexError.
Proof.
have s0 : sort geq [:: 0%N] = [:: 0%N] by [].
by rewrite /one_hot_encode s0 /= /np_delete_col /encode_column /getcol !insubT.
Qed.

Lemma one_hot_encode_shape_witness :
  exists out,
    [/\ one_hot_encode leq id (Array2 D0) [:: 0%N] false = Ok out,
        nrows out = 3%N, ncols out = 3%N
      & rows_of id out = [:: [:: 1; 0; 1]; [:: 0; 1; 2]; [:: 1; 0; 3]]%N].
Proof.
have [out [E rout cout _ rows]] :=
  @one_hot_encode_shape _ leq id (Array2 D0) [:: 0%N] false isT isT isT.
exists out; split=> //; last by rewrite rows encode_rows_D0.
by rewrite cout big_seq1 /unique_count column_D0.
Defined.

Lemma gd_history_cadence_fault_witness :
  fit rng0 (Nd2 (Array2 X0)) (Array1 y0) "gradient_descent" 100%:R^-1 10 fresh =
  (Raise ZeroDivisionError,
   World (fitted (gd_step 100%:R^-1 (augmented X0) y0 (gd_start rng0 1)))
         [:: (0%N, Some (gd_mse (augmented X0) y0 (gd_start rng0 1)))]).
Proof.
have [H _] := @gd_history_cadence_fault rat rng0 _ _ _ _ y0 100%:R^-1 10 fresh
                (features2 X0) isT.
exact: H.
Defined.

(** * Further properties *)

(** ** Evaluation metrics *)

Arguments xsum : simpl never.
Arguments xsquare1 : simpl never.
Arguments sub_xscalar : simpl never.
Arguments abs1 : simpl never.

Section EvaluateProps.

Variable R : rcfType.

Lemma foldr_xadd_some (s : seq R) :
  foldr (@xadd R) (Some 0) [seq Some x | x <- s] = Some (\sum_(x <- s) x).
Proof.
elim: s => [|x s IH] /=; first by rewrite big_nil.
by rewrite IH big_cons.
Qed.

Lemma xsum_some n (f : 'I_n -> R) :
  xsum (Array1 (\col_i Some (f i))) = Some (\sum_i f i).
Proof.
rewrite /xsum /len -val_enum_ord -map_comp.
have -> : [seq (item1 None (Array1 (\col_i Some (f i))) \o val) i
          | i <- enum 'I_n] = [seq Some x | x <- [seq f i | i <- enum 'I_n]].
  by rewrite -map_comp; apply: eq_map => i /=; rewrite item1_ord mxE.
by rewrite foldr_xadd_some big_map big_enum.
Qed.

Lemma xsum_tss m (y : 'cV[R]_m.+1) :
  xsum (xsquare1 (sub_xscalar (Array1 y) (np_mean (Array1 y)))) =
  Some (tss y).
Proof.
rewrite /np_mean /len /sub_xscalar /xsquare1 -/(mean y).
have -> : \col_i (if (\col_i0 xsub (Some (y i0 ord0)) (Some (mean y))) i ord0
                  is Some u then Some (u ^+ 2) else None) =
          \col_i Some ((y i ord0 - mean y) ^+ 2).
  by apply/matrixP=> i j; rewrite !mxE.
by rewrite xsum_some.
Qed.

Lemma np_sum_abs m (e : 'cV[R]_m) :
  np_sum (abs1 (Array1 e)) = \sum_i `|e i ord0|.
Proof. by rewrite /np_sum /abs1; apply: eq_bigr => i _; rewrite mxE. Qed.

(** What [evaluate_regression] returns on two arrays of one positive
    length *)
Lemma evaluate_regressionE m (y yhat : 'cV[R]_m.+1) :
  evaluate_regression (Array1 y) (Array1 yhat) =
  Ok {| R2 := if tss y == 0 then None else Some (1 - rss y yhat / tss y);
        RMSE := Num.sqrt (m.+1%:R^-1 * rss y yhat);
        MAE := m.+1%:R^-1 * sae y yhat |}.
Proof.
rewrite /evaluate_regression broadcast1E col_sub /rbind xsum_tss.
rewrite [py_inv _ _]/= np_sum_square np_sum_abs /rss /sae /xdiv /xsub.
have E f : \sum_i f ((y - yhat) i ord0) = \sum_i f (y i ord0 - yhat i ord0) :> R.
  by apply: eq_bigr => i _; rewrite !mxE.
by rewrite (E (fun x => x ^+ 2)) (E (fun x => `|x|)); case: ifP.
Qed.

Lemma rss_ge0 m (y yhat : 'cV[R]_m) : 0 <= rss y yhat.
Proof. by apply: sumr_ge0 => i _; apply: sqr_ge0. Qed.

Lemma tss_ge0 m (y : 'cV[R]_m) : 0 <= tss y.
Proof. by apply: sumr_ge0 => i _; apply: sqr_ge0. Qed.

Lemma rss_eq0 m (y yhat : 'cV[R]_m) : (rss y yhat == 0) = (y == yhat).
Proof.
rewrite /rss psumr_eq0 => [i _|]; first exact: sqr_ge0.
apply/allP/eqP=> [H|-> i _]; last by rewrite subrr expr0n /= eqxx.
apply/matrixP=> i j; rewrite (ord1 j).
by have := H i (mem_index_enum _); rewrite /= sqrf_eq0 subr_eq0 => /eqP.
Qed.

Lemma sae_eq0 m (y yhat : 'cV[R]_m) : (sae y yhat == 0) = (y == yhat).
Proof.
rewrite /sae psumr_eq0 => [i _|]; first exact: normr_ge0.
apply/allP/eqP=> [H|-> i _]; last by rewrite subrr normr0 eqxx.
apply/matrixP=> i j; rewrite (ord1 j).
by have := H i (mem_index_enum _); rewrite /= normr_eq0 subr_eq0 => /eqP.
Qed.

Lemma tss_eq0 m (y : 'cV[R]_m.+1) : (tss y == 0) = is_constant y.
Proof.
rewrite /tss psumr_eq0 => [i _|]; first exact: sqr_ge0.
apply/allP/'forall_forallP=> [H i j|H i _].
  have := H i (mem_index_enum _); have := H j (mem_index_enum _).
  by rewrite /= !sqrf_eq0 !subr_eq0 => /eqP-> /eqP->.
rewrite /= sqrf_eq0 subr_eq0 /mean.
have -> : \sum_j y j ord0 = \sum_(j < m.+1) y i ord0.
  by apply: eq_bigr => j _; rewrite (eqP (H j i)).
by rewrite sumr_const card_ord -mulr_natr mulfK // pnatr_eq0.
Qed.

(** The square of a sum is at most the count times the sum of squares. *)
Lemma sqr_sum_le n (a : 'I_n -> R) :
  (\sum_i a i) ^+ 2 <= n%:R * \sum_i (a i) ^+ 2.
Proof.
case: n a => [|n] a; first by rewrite !big_ord0 expr0n mulr0.
set S := \sum_i a i; set Q := \sum_i _; set N : R := n.+1%:R.
have N0 : 0 < N by rewrite ltr0n.
have : 0 <= \sum_i (N * a i - S) ^+ 2 by apply: sumr_ge0 => i _; apply: sqr_ge0.
have -> : \sum_i (N * a i - S) ^+ 2 = N * (N * Q - S ^+ 2).
  have -> : \sum_i (N * a i - S) ^+ 2 =
            \sum_i (N ^+ 2 * (a i) ^+ 2 - (N * S *+ 2) * a i + S ^+ 2).
    by apply: eq_bigr => i _; ring.
  rewrite big_split sumrB /= -mulr_sumr -mulr_sumr -/S -/Q.
  by rewrite sumr_const card_ord -/N -[S ^+ 2 *+ _]mulr_natr -/N; ring.
by rewrite pmulr_rge0 // subr_ge0.
Qed.

End EvaluateProps.

Section EvaluateTheorems.

Variable R : rcfType.

(** X1.  Evaluated against themselves, non-empty values give RMSE 0, MAE 0
    and R2 = 1, except that R2 is not finite when all values are equal. *)
Theorem evaluate_perfect_predictions m (y : 'cV[R]_m.+1) :
  evaluate_regression (Array1 y) (Array1 y) =
  Ok {| R2 := if is_constant y then None else Some 1;
        RMSE := 0; MAE := 0 |}.
Proof.
rewrite evaluate_regressionE tss_eq0.
have /eqP -> : rss y y == 0 by rewrite rss_eq0.
have /eqP -> : sae y y == 0 by rewrite sae_eq0.
by rewrite mulr0 sqrtr0 mul0r subr0.
Qed.

(** X2.  With empty true values [evaluate_regression] never returns: it
    raises ZeroDivisionError at [1 / N] when the predictions broadcast
    against them (length 0 or 1), ValueError otherwise. *)
Theorem evaluate_empty n (y : 'cV[R]_0) (yhat : 'cV[R]_n) :
  evaluate_regression (Array1 y) (Array1 yhat) =
  if (n == 0%N) || (n == 1%N) then Raise ZeroDivisionError
  else Raise NumpyValueError.
Proof.
rewrite /evaluate_regression /broadcast1 /len.
by case: n yhat => [|[|n]] yhat.
Qed.

(** X3.  On arrays of one positive length the call returns, with
    0 <= MAE <= RMSE and, when R2 is finite, R2 <= 1. *)
Theorem evaluate_bounds m (y yhat : 'cV[R]_m.+1) :
  exists r,
    [/\ evaluate_regression (Array1 y) (Array1 yhat) = Ok r,
        0 <= MAE r, MAE r <= RMSE r
      & forall x, R2 r = Some x -> x <= 1].
Proof.
eexists; split; first exact: evaluate_regressionE.
- by rewrite /= mulr_ge0 ?invr_ge0 ?ler0n //; apply: sumr_ge0 => i _.
- rewrite /=; set N : R := m.+1%:R.
  have N0 : 0 < N by rewrite ltr0n.
  have s0 : 0 <= N^-1 * sae y yhat.
    by rewrite mulr_ge0 ?invr_ge0 ?ler0n //; apply: sumr_ge0 => i _.
  rewrite -[X in X <= _]ger0_norm // -sqrtr_sqr; apply: ler_wsqrtr.
  rewrite exprMn expr2 -mulrA ler_pM2l ?invr_gt0 // ler_pdivrMl //.
  have -> : rss y yhat = \sum_i `|y i ord0 - yhat i ord0| ^+ 2.
    by apply: eq_bigr => i _; rewrite real_normK // num_real.
  exact: sqr_sum_le.
- move=> x /=; case: ifP => // _ [<-].
  by rewrite gerBl divr_ge0 ?rss_ge0 ?tss_ge0.
Qed.

(** X4.  On arrays of one positive length, RMSE is 0 exactly when the
    predictions equal the true values, and so is MAE. *)
Theorem evaluate_zero_error m (y yhat : 'cV[R]_m.+1) :
  exists r,
    [/\ evaluate_regression (Array1 y) (Array1 yhat) = Ok r,
        (RMSE r == 0) = (yhat == y)
      & (MAE r == 0) = (yhat == y)].
Proof.
have N0 : 0 < (m.+1%:R : R)^-1 by rewrite invr_gt0 ltr0n.
eexists; split; first exact: evaluate_regressionE.
  rewrite /= sqrtr_eq0 pmulr_rle0 // [yhat == y]eq_sym -rss_eq0.
  by rewrite [RHS]Order.POrderTheory.eq_le rss_ge0 andbT.
by rewrite /= mulf_eq0 Order.POrderTheory.gt_eqF //= sae_eq0 eq_sym.
Qed.

(** X5.  Predicting the mean of the true values for every sample gives
    R2 = 0 (not finite when all true values are equal). *)
Theorem evaluate_mean_predictor m (y : 'cV[R]_m.+1) :
  exists r,
    evaluate_regression (Array1 y)
      (Array1 (const_mx (mean y) : 'cV[R]_m.+1)) = Ok r
    /\ R2 r = if is_constant y then None else Some 0.
Proof.
eexists; split; first exact: evaluate_regressionE.
rewrite /= tss_eq0; case: ifPn => // nc.
have -> : rss y (const_mx (mean y)) = tss y.
  by apply: eq_bigr => i _; rewrite mxE.
by rewrite divff ?subrr // tss_eq0.
Qed.

End EvaluateTheorems.


(** ** Least squares: optimality, exact data, rank deficiency *)

Section LeastSquaresMore.

Variable F : realFieldType.

Lemma sum_sqr_dot m (u : 'cV[F]_m) :
  \sum_i (u i ord0) ^+ 2 = (u^T *m u) ord0 ord0.
Proof. by rewrite mxE; apply: eq_bigr => i _; rewrite mxE expr2. Qed.

(** Residuals orthogonal to the columns of [A] are the shortest. *)
Lemma orthogonal_residual_minimal m n (A : 'M[F]_(m, n)) (y : 'cV[F]_m)
    (w v : 'cV[F]_n) :
  A^T *m (y - A *m w) = 0 ->
  \sum_i ((y - A *m w) i ord0) ^+ 2 <= \sum_i ((y - A *m v) i ord0) ^+ 2.
Proof.
move=> orth; set r := y - A *m w; set z := A *m (w - v).
have -> : y - A *m v = r + z.
  by rewrite /r /z mulmxBr addrA subrK.
have cross : \sum_i r i ord0 * z i ord0 = 0.
  have -> : \sum_i r i ord0 * z i ord0 = (z^T *m r) ord0 ord0.
    by rewrite mxE; apply: eq_bigr => i _; rewrite [_^T _ _]mxE mulrC.
  by rewrite /z trmx_mul -mulmxA orth mulmx0 mxE.
have -> : \sum_i ((r + z) i ord0) ^+ 2 =
          \sum_i (r i ord0) ^+ 2 + \sum_i (r i ord0 * z i ord0) *+ 2
          + \sum_i (z i ord0) ^+ 2.
  by rewrite -!big_split /=; apply: eq_bigr => i _; rewrite mxE sqrrD.
rewrite sumrMnl cross mul0rn addr0 lerDl.
by apply: sumr_ge0 => i _; apply: sqr_ge0.
Qed.

Lemma normal_equation_exact m p (X : 'M[F]_(m, p)) (w0 : 'cV[F]_(1 + p)) :
  (augmented X)^T *m augmented X \in unitmx ->
  normal_equation X (augmented X *m w0) = w0.
Proof.
by move=> U; rewrite /normal_equation -mulmxA (mulmxA _^T) mulKmx.
Qed.

Lemma gram_unitmx_rank m n (A : 'M[F]_(m, n)) :
  (A^T *m A \in unitmx) = (\rank A == n).
Proof.
apply/idP/eqP=> [U|]; last exact: gram_unitmx.
apply/eqP; rewrite eqn_leq rank_leq_col /=.
by rewrite -{1}(mxrank_unit U) mxrankM_maxr.
Qed.

End LeastSquaresMore.

Section LeastSquaresTheorems.

Variable F : realFieldType.

(** X6.  The least-squares fit is optimal on its training data: no
    intercept [b] and coefficients [c] give a smaller sum of squared
    residuals than [predict(X)] after the fit. *)
Theorem least_squares_minimises_rss (g : rng F) m p (X : ndarray F)
    (Xm : 'M[F]_(m, p)) (y : 'cV[F]_m) (lr : F) (it : nat) (w : world F) :
  features X Xm ->
  \rank (augmented Xm) = (1 + p)%N ->
  exists (w' : world F) (yhat : 'cV[F]_m),
    [/\ fit g X (Array1 y) "least_squares" lr it w = (Ok None, w'),
        predict X w' = (Ok (Array1 yhat), w')
      & forall (b : F) (c : 'cV[F]_p),
          \sum_i (y i ord0 - yhat i ord0) ^+ 2 <=
          \sum_i (y i ord0 - ((Xm *m c) i ord0 + b)) ^+ 2].
Proof.
move=> fX rkX; have U := gram_unitmx rkX.
exists (World (fitted (normal_equation Xm y)) (stdout w)).
exists (augmented Xm *m normal_equation Xm y); split.
- by rewrite (fit_least_squaresE g y lr it w fX) U.
- exact: predict_fitted.
move=> b c.
have := orthogonal_residual_minimal (col_mx (b%:M : 'M_1) c)
          (normal_equation_residual y U).
rewrite mul_row_col.
set s1 := \sum_i _; set s2 := \sum_i _ => le12.
set t1 := \sum_i _; set t2 := \sum_i _.
have -> : t1 = s1 by apply: eq_bigr => i _; rewrite !mxE.
suff -> : t2 = s2 by [].
apply: eq_bigr => i _; rewrite !mxE big_ord1 !mxE mul1r mulr1n.
by rewrite [_ + b]addrC.
Qed.

(** X7.  Data that are exactly linear are recovered: if [y] is
    [b + X . c] for some intercept and coefficients and the augmented
    matrix has full column rank, the least-squares fit stores exactly
    [b] and [c], and [predict(X)] returns [y]. *)
Theorem least_squares_recovers_linear_data (g : rng F) m p (X : ndarray F)
    (Xm : 'M[F]_(m, p)) (b : F) (c : 'cV[F]_p) (lr : F) (it : nat)
    (w : world F) :
  features X Xm ->
  \rank (augmented Xm) = (1 + p)%N ->
  let y := Xm *m c + const_mx b in
  let w' := World {| coefficients := Some (Array1 c); intercept := Some b |}
                  (stdout w) in
  fit g X (Array1 y) "least_squares" lr it w = (Ok None, w')
  /\ predict X w' = (Ok (Array1 y), w').
Proof.
move=> fX rkX y w'; have U := gram_unitmx rkX.
pose w0 : 'cV[F]_(1 + p) := col_mx (b%:M : 'M_1) c.
have w00 : w0 ord0 ord0 = b.
  have -> : (ord0 : 'I_(1 + p)) = lshift p (ord0 : 'I_1) by apply: val_inj.
  by rewrite col_mxEu mxE mulr1n.
have yE : y = augmented Xm *m w0.
  by rewrite augmented_mul w00 col_mxKd.
have fE : fitted w0 = Regressor (Some (Array1 c)) (Some b).
  by rewrite /fitted w00 col_mxKd.
rewrite /w' -fE (fit_least_squaresE g y lr it w fX) U yE.
by rewrite normal_equation_exact // (predict_fitted _ _ fX).
Qed.

(** X8.  When the augmented matrix has not full column rank (as with
    fewer samples than parameters), the least-squares fit raises
    LinAlgError and leaves the model as it was. *)
Theorem least_squares_rank_deficient (g : rng F) m p (X : ndarray F)
    (Xm : 'M[F]_(m, p)) (y : 'cV[F]_m) (lr : F) (it : nat) (w : world F) :
  features X Xm ->
  (\rank (augmented Xm) < 1 + p)%N ->
  fit g X (Array1 y) "least_squares" lr it w = (Raise LinAlgError, w).
Proof.
move=> fX rk; rewrite (fit_least_squaresE g y lr it w fX) gram_unitmx_rank.
by rewrite ltn_eqF.
Qed.

End LeastSquaresTheorems.

(** ** Prediction and gradient descent: further properties *)

Section RegressorMore.

Variable F : realFieldType.

Lemma gd_mse_ge0 m p (Xa : 'M[F]_(m, 1 + p)) (y : 'cV[F]_m) w :
  0 <= gd_mse Xa y w.
Proof.
rewrite /gd_mse mulr_ge0 ?invr_ge0 ?ler0n //.
by apply: sumr_ge0 => i _; apply: sqr_ge0.
Qed.

Lemma gd_step_lr0 m p (Xa : 'M[F]_(m, 1 + p)) (y : 'cV[F]_m) w :
  gd_step 0 Xa y w = w.
Proof. by rewrite /gd_step scale0r subr0. Qed.

Lemma gd_params_lr0 m p (Xa : 'M[F]_(m, 1 + p)) (y : 'cV[F]_m) w n :
  gd_params 0 Xa y w n = w.
Proof. by rewrite /gd_params; elim: n => //= n ->; rewrite gd_step_lr0. Qed.

Lemma gd_reports0 m p lr (Xa : 'M[F]_(m, 1 + p)) (y : 'cV[F]_m) it w0 n :
  gd_reports lr Xa y it w0 0 n =
  [seq (k, Some (gd_mse Xa y (gd_params lr Xa y w0 k)))
  | k <- iota 0 n & (k %% (it %/ 10) == 0)%N].
Proof. by rewrite /gd_reports; congr map; apply: eq_filter => k. Qed.

(** The gradient vanishes at the solution of the normal equation. *)
Lemma gd_step_normal_equation m p lr (X : 'M[F]_(m, p)) (y : 'cV[F]_m) :
  (augmented X)^T *m augmented X \in unitmx ->
  gd_step lr (augmented X) y (normal_equation X y) = normal_equation X y.
Proof.
move=> U; rewrite /gd_step /gd_gradient /gd_error.
rewrite [rsubmx _]row_mxKr -augmented_mul.
have -> : augmented X *m normal_equation X y - y =
          - (y - augmented X *m normal_equation X y) by rewrite opprB.
by rewrite mulmxN normal_equation_residual // oppr0 !scaler0 subr0.
Qed.

(** A call of [fit] does not read the parameters the model had. *)
Lemma fit_multiple_forgets X y (s1 s2 : LinearRegressor F) out :
  (fit_multiple X y (World s1 out)).1 = (fit_multiple X y (World s2 out)).1
  /\ (is_ok (fit_multiple X y (World s1 out)).1 ->
      (fit_multiple X y (World s1 out)).2 =
      (fit_multiple X y (World s2 out)).2).
Proof.
rewrite /fit_multiple /bind /lift.
case: (np_dot22 _ _) => [XtX|?] //.
case: (np_linalg_inv _) => [w1|?] //.
case: (np_dot22 _ _) => [w2|?] //.
case: (np_dot21 _ _) => [wv|?] //.
by case: (getitem0 _ _) => [w0|?].
Qed.

Lemma fit_gradient_descent_forgets g X y lr it (s1 s2 : LinearRegressor F) out :
  (fit_gradient_descent g X y lr it (World s1 out)).1 =
  (fit_gradient_descent g X y lr it (World s2 out)).1
  /\ (is_ok (fit_gradient_descent g X y lr it (World s1 out)).1 ->
      (fit_gradient_descent g X y lr it (World s1 out)).2 =
      (fit_gradient_descent g X y lr it (World s2 out)).2).
Proof. by rewrite /fit_gradient_descent /bind; case: (ncols X). Qed.

End RegressorMore.

Section RegressorMoreTheorems.

Variable F : realFieldType.

(** X9.  For a model with one coefficient, [predict] on a one-dimensional
    array and on the same values as a single column agree, whether they
    return or raise. *)
Theorem predict_1d_2d_agree m (x : 'cV[F]_m) (c : 'cV[F]_1) (b : option F)
    (out : seq (nat * option F)) :
  let w := World {| coefficients := Some (Array1 c); intercept := b |} out in
  predict (Nd1 (Array1 x)) w = predict (Nd2 (Array2 x)) w.
Proof.
case: b => [b|] w; rewrite /w /predict /bind /get_coefficients /=; last by [].
rewrite broadcast1_scalar_l /ret /=.
congr (Ok (Array1 (_ + _)), _); apply/matrixP=> i j.
by rewrite !mxE big_ord1 /at2 /at1 item2_ord item1_ord mulrC.
Qed.

(** X10.  Every mean squared error that gradient descent records is
    non-negative. *)
Theorem gd_mse_history_nonnegative (g : rng F) m p (X : ndarray F)
    (Xm : 'M[F]_(m, p)) (y : 'cV[F]_m) (lr : F) (it : nat) (w : world F)
    ms cs bs w' :
  features X Xm ->
  fit g X (Array1 y) "gradient_descent" lr it w = (Ok (Some (ms, cs, bs)), w') ->
  all (fun x => 0 <= x) ms.
Proof.
move=> fX; case R: (gd_returns m it); last first.
  by rewrite (fit_gd_faults g y lr w fX (negbT R)).
rewrite (fit_gd_returns g y lr w fX R) => -[<- _ _ _].
by apply/allP=> x /mapP[k _ ->]; apply: gd_mse_ge0.
Qed.

(** X11.  A gradient-descent call that returns has printed, after what was
    printed before, one report for each epoch [k] with
    [k % (iterations // 10) == 0], in increasing order and with the mean
    squared error of that epoch, and nothing else. *)
Theorem gd_printed_reports (g : rng F) m p (X : ndarray F)
    (Xm : 'M[F]_(m, p)) (y : 'cV[F]_m) (lr : F) (it : nat) (w : world F)
    r w' :
  features X Xm ->
  fit g X (Array1 y) "gradient_descent" lr it w = (Ok r, w') ->
  stdout w' =
  stdout w ++
  [seq (k, Some (gd_mse (augmented Xm) y
                   (iter k (gd_step lr (augmented Xm) y) (gd_start g p))))
  | k <- iota 0 it & (k %% (it %/ 10) == 0)%N].
Proof.
move=> fX; case R: (gd_returns m it); last first.
  by rewrite (fit_gd_faults g y lr w fX (negbT R)).
by rewrite (fit_gd_returns g y lr w fX R) gd_reports0 => -[_ <-].
Qed.

(** X12.  With learning rate 0 gradient descent never moves: a call that
    returns leaves the random initial parameters, and every recorded
    snapshot equals them. *)
Theorem gd_zero_learning_rate (g : rng F) m p (X : ndarray F)
    (Xm : 'M[F]_(m, p)) (y : 'cV[F]_m) (it : nat) (w : world F)
    ms cs bs w' :
  features X Xm ->
  fit g X (Array1 y) "gradient_descent" 0 it w = (Ok (Some (ms, cs, bs)), w') ->
  [/\ self w' = fitted (gd_start g p),
      cs = nseq it (Array1 (dsubmx (gd_start g p)))
    & bs = nseq it (Some (gd_start g p ord0 ord0))].
Proof.
move=> fX; case R: (gd_returns m it); last first.
  by rewrite (fit_gd_faults g y 0 w fX (negbT R)).
rewrite (fit_gd_returns g y 0 w fX R) => -[_ <- <- <-] /=.
rewrite gd_params_lr0; split=> //.
  rewrite -[in RHS](size_iota 0 it); elim: (iota 0 it) => //= k s ->.
  by rewrite gd_params_lr0 gd_step_lr0.
rewrite -[in RHS](size_iota 0 it); elim: (iota 0 it) => //= k s ->.
by rewrite gd_params_lr0 gd_step_lr0.
Qed.

(** X13.  The last snapshots that gradient descent returns are the
    parameters it leaves in the model. *)
Theorem gd_last_snapshot_is_model (g : rng F) m p (X : ndarray F)
    (Xm : 'M[F]_(m, p)) (y : 'cV[F]_m) (lr : F) (it : nat) (w : world F)
    ms cs bs w' :
  features X Xm -> (0 < it)%N ->
  fit g X (Array1 y) "gradient_descent" lr it w = (Ok (Some (ms, cs, bs)), w') ->
  coefficients (self w') = Some (last (Array1 (0 : 'cV[F]_0)) cs)
  /\ intercept (self w') = last None bs.
Proof.
move=> fX it0; case R: (gd_returns m it); last first.
  by rewrite (fit_gd_faults g y lr w fX (negbT R)).
rewrite (fit_gd_returns g y lr w fX R) => -[_ <- <- <-] /=.
case: it it0 {R} => // n _.
by rewrite -[X in iota 0 X]addn1 iotaD !map_cat !last_cat /= add0n.
Qed.

(** X14.  A call of [fit], with either method and arrays of any shape,
    does not depend on the parameters the model had before: from two
    models it returns or raises the same, and when it returns it leaves
    the same parameters. *)
Theorem fit_forgets_previous_parameters (g : rng F) (X : ndarray F)
    (y : array1 F) (method : string) (lr : F) (it : nat)
    (s1 s2 : LinearRegressor F) (out : seq (nat * option F)) :
  let r1 := fit g X y method lr it (World s1 out) in
  let r2 := fit g X y method lr it (World s2 out) in
  r1.1 = r2.1 /\ (is_ok r1.1 -> r1.2 = r2.2).
Proof.
rewrite /fit; case: (String.eqb method "least_squares") => /=.
  move: (fit_multiple_forgets
    (np_insert_col0 1 match X with Nd1 x => reshape_col x | Nd2 A => A end)
    y s1 s2 out); rewrite /bind.
  case: (fit_multiple _ _ (World s1 out)) => [[u1|e1] w1];
    case: (fit_multiple _ _ (World s2 out)) => [[u2|e2] w2] /= [E1 E2] //.
  by case: E1 => ->; split.
case: (String.eqb method "gradient_descent") => //=.
move: (fit_gradient_descent_forgets g
  (np_insert_col0 1 match X with Nd1 x => reshape_col x | Nd2 A => A end)
  y lr it s1 s2 out); rewrite /bind.
case: (fit_gradient_descent _ _ _ _ _ (World s1 out)) => [[u1|e1] w1];
  case: (fit_gradient_descent _ _ _ _ _ (World s2 out)) => [[u2|e2] w2] /=
    [E1 E2] //.
all: by case: E1 => ->; split=> // ok; apply: E2.
Qed.

(** X15.  The least-squares solution is a fixed point of gradient descent:
    an epoch that starts from it leaves the parameters where they are,
    for every learning rate. *)
Theorem gd_epoch_fixes_least_squares m p (Xm : 'M[F]_(m, p)) (y : 'cV[F]_m)
    (lr : F) (it epoch : nat) (h : history F) (out : seq (nat * option F))
    r w' :
  (augmented Xm)^T *m augmented Xm \in unitmx ->
  gd_epoch (Array2 (augmented Xm)) (Array1 y) m lr it epoch h
    (World (fitted (normal_equation Xm y)) out) = (Ok r, w') ->
  self w' = fitted (normal_equation Xm y).
Proof.
move=> U; rewrite gd_epochE /epoch_outcome gd_step_normal_equation //.
case: m Xm y {U} => [|m] Xm y //.
by case: (it %/ 10)%N => [|d10] //; case: (it %/ 100)%N => [|d100] // [_ <-].
Qed.

End RegressorMoreTheorems.

(** ** One-hot encoding: further properties *)

Section OneHotMore.

Variable T : eqType.
Variable leT : rel T.
Variable of_int : nat -> T.

Local Abbreviation x0 := (of_int 0).

(** The rows of the result, under the conditions of a successful call *)
Lemma one_hot_encode_rows (X : array2 T) (cats : seq nat) (d : bool) :
  (0 < nrows X)%N -> uniq cats -> all (fun c => c < ncols X)%N cats ->
  exists out,
    [/\ one_hot_encode leT of_int X cats d = Ok out, nrows out = nrows X
      & forall i, (i < nrows X)%N ->
        row_of of_int out i = encode_row leT of_int X cats d (row_of of_int X i)].
Proof.
case: X => m p M /= m0 ucats pcats; rewrite /one_hot_encode.
have sl := sorted_gtn_sort ucats.
have pl : all (fun c => c < ncols (Array2 M))%N (sort geq cats).
  by rewrite all_sort.
have [Xt [-> rXt cXt rowXt]] := @delete_loop _ of_int _ _ sl pl.
have [out [E rout cout rowout]] :=
  @encode_loop _ leT of_int _ _ M d _ m0 pl _ rXt.
by exists out; rewrite /= E; split=> // i im; rewrite rowout // rowXt.
Qed.

Lemma sort_geq_max (s : seq nat) c l :
  sort geq s = c :: l -> forall k, k \in s -> (k <= c)%N.
Proof.
move=> E k; rewrite -(mem_sort geq) E inE => /orP[/eqP-> //|kl].
have : sorted geq (c :: l) by rewrite -E; apply: sort_sorted => x y; exact: leq_total.
move=> /(order_path_min (fun x y z (H1 : geq y x) (H2 : geq x z) => leq_trans H2 H1 : geq y z)).
by move/allP/(_ k kl).
Qed.

Lemma iota_split n j :
  (j < n)%N -> iota 0 n = iota 0 j ++ j :: iota j.+1 (n - j.+1).
Proof.
move=> jn; rewrite -{1}(subnKC jn) iotaD add0n.
by rewrite -{1}addn1 iotaD add0n -catA.
Qed.

Lemma index_one_hot_vector n j :
  of_int 1 != of_int 0 -> (j < n)%N ->
  index (of_int 1) (one_hot_vector of_int n j) = j.
Proof.
move=> ne jn; rewrite /one_hot_vector.
rewrite (iota_split jn) map_cat index_cat /= eqxx /= eqxx size_map size_iota addn0.
case: ifP => // /mapP[k]; rewrite mem_iota add0n => /andP[_ kj] /eqP.
by rewrite (ltn_eqF kj) /= (negPf ne).
Qed.

Lemma indicators_one_hot (X : array2 T) c v :
  v \in column of_int X c ->
  let uvals := sort leT (undup (column of_int X c)) in
  indicators leT of_int X false c v =
    one_hot_vector of_int (unique_count of_int X c) (index v uvals)
  /\ (index v uvals < unique_count of_int X c)%N.
Proof.
move=> vc uvals; rewrite /indicators drop0 -/uvals /unique_count.
have su : size uvals = size (undup (column of_int X c)) by rewrite size_sort.
have uu : uniq uvals by rewrite sort_uniq undup_uniq.
have vu : v \in uvals by rewrite mem_sort mem_undup.
rewrite -su index_mem vu; split=> //.
apply: (@eq_from_nth _ x0); first by rewrite !size_map size_iota.
rewrite size_map => k ks.
rewrite (nth_map x0) // (nth_map 0%N) ?size_iota // nth_iota // add0n.
congr (of_int (nat_of_bool _)).
apply/eqP/eqP=> [->|->]; first by rewrite index_uniq.
by rewrite nth_index.
Qed.

(** Deleting positions from the largest down keeps the others in order. *)
Lemma foldl_del_at (l : seq nat) (r : seq T) :
  sorted gtn l -> all (fun c => c < size r)%N l ->
  foldl (fun r c => del_at c r) r l =
  [seq nth x0 r j | j <- iota 0 (size r) & j \notin l].
Proof.
elim: l r => [|c l IH] r /=.
  move=> _ _; rewrite filter_predT; apply: (@eq_from_nth _ x0).
    by rewrite size_map size_iota.
  by move=> j js; rewrite (nth_map 0%N) ?size_iota // nth_iota.
move=> pcl /andP[cr lr].
have lc : all (gtn c) l.
  by apply: order_path_min pcl => x y z /= /[swap]; apply: ltn_trans.
have sd : size (del_at c r) = (size r).-1.
  rewrite /del_at size_cat size_take size_drop cr.
  by case: (size r) cr => // n cn; rewrite subSS /= subnKC.
have lr1 : all (fun k => k < size (del_at c r))%N l.
  apply: sub_all lc => k /= kc; rewrite sd.
  by rewrite -ltnS prednK ?(leq_ltn_trans _ cr) // (leq_trans kc).
rewrite IH ?(path_sorted pcl) // sd.
have st : size (take c r) = c by rewrite size_take cr.
have nl k : (c <= k)%N -> k \notin l.
  move=> ck; apply/negP=> /(allP lc) /=.
  by rewrite ltnNge ck.
case E: (size r) cr sd => [|n] // cn sd.
have -> : iota 0 n.+1.-1 = iota 0 c ++ iota c (n - c).
  by rewrite -[c in iota c _]add0n -iotaD subnKC.
rewrite (iota_split (cn : (c < n.+1)%N)) subSS.
rewrite !filter_cat !map_cat /= inE eqxx /=; congr (_ ++ _).
  have Ef : {in iota 0 c, (fun j => j \notin l) =1 (fun j => j \notin c :: l)}.
    move=> j; rewrite mem_iota add0n => /andP[_ jc].
    by rewrite inE negb_or (ltn_eqF jc).
  rewrite -(eq_in_filter Ef); apply/eq_in_map=> j.
  rewrite mem_filter mem_iota add0n => /andP[_ /andP[_ jc]].
  by rewrite /del_at nth_cat st jc nth_take.
have /all_filterP -> : all (fun j => j \notin l) (iota c (n - c)).
  by apply/allP=> j; rewrite mem_iota => /andP[cj _]; apply: nl.
have /all_filterP -> : all (fun j => j \notin c :: l) (iota c.+1 (n - c)).
  apply/allP=> j; rewrite mem_iota => /andP[cj _].
  by rewrite inE negb_or (gtn_eqF cj) nl // ltnW.
rewrite -[c.+1]add1n iotaDl -map_comp; apply/eq_in_map=> j.
rewrite mem_iota => /andP[cj _] /=.
by rewrite /del_at nth_cat st ltnNge cj /= nth_drop add1n addSn subnKC.
Qed.

(** Largest first, the sorted indices are in range when all are. *)
Lemma sort_geq_head (s : seq nat) n :
  has (fun c => n <= c)%N s ->
  exists c l, sort geq s = c :: l /\ (n <= c)%N.
Proof.
case/hasP=> k ks nk; case E: (sort geq s) => [|c l].
  by move: ks; rewrite -(mem_sort geq) E.
by exists c, l; split=> //; apply: leq_trans nk (sort_geq_max E ks).
Qed.

End OneHotMore.

Section OneHotMoreTheorems.

Variable T : eqType.
Variable leT : rel T.
Variable of_int : nat -> T.

Local Abbreviation x0 := (of_int 0).

(** X16.  A column index that is not below the column count makes
    [one_hot_encode] raise IndexError, whatever the other indices are. *)
Theorem one_hot_encode_index_out_of_range (X : array2 T) (cats : seq nat)
    (d : bool) :
  has (fun c => ncols X <= c)%N cats ->
  one_hot_encode leT of_int X cats d = Raise IndexError.
Proof.
move=> /sort_geq_head[c [l [E nc]]]; rewrite /one_hot_encode E /=.
case: X nc => m p M /= pc; rewrite /np_delete_col insubF //.
by rewrite ltnNge pc.
Qed.

(** X17.  Without [drop_first], every row of the result starts with one
    one-hot vector for each categorical column, by increasing column
    index: as long as the column has distinct values, with a single one,
    at the rank of the row's value among them. *)
Theorem one_hot_encode_one_hot_rows (X : array2 T) (cats : seq nat) :
  (0 < nrows X)%N -> uniq cats -> all (fun c => c < ncols X)%N cats ->
  exists out,
    one_hot_encode leT of_int X cats false = Ok out
    /\ forall i, (i < nrows X)%N ->
       let rank c :=
         index (item2 x0 X i c) (sort leT (undup (column of_int X c))) in
       row_of of_int out i =
         flatten [seq one_hot_vector of_int (unique_count of_int X c) (rank c)
                 | c <- rev (sort geq cats)]
         ++ foldl (fun r c => del_at c r) (row_of of_int X i) (sort geq cats)
       /\ forall c, c \in cats -> (rank c < unique_count of_int X c)%N.
Proof.
move=> m0 ucats pcats.
have [out [E _ rows]] := one_hot_encode_rows leT of_int false m0 ucats pcats.
exists out; split=> // i im rank.
have mem c : c \in cats -> item2 x0 X i c \in column of_int X c.
  by move=> _; apply/mapP; exists i; rewrite // mem_iota.
have nthE c : c \in cats -> nth x0 (row_of of_int X i) c = item2 x0 X i c.
  move=> /(allP pcats) cp.
  by rewrite /row_of (nth_map 0%N) ?size_iota // nth_iota.
split; last by move=> c cc; have [] := indicators_one_hot leT (mem c cc).
rewrite rows // /encode_row; congr (flatten _ ++ _).
apply/eq_in_map=> c; rewrite mem_rev mem_sort => cc.
by rewrite nthE //; have [] := indicators_one_hot leT (mem c cc).
Qed.

(** X18.  Encoding one column without [drop_first] can be undone: in
    every row of the result the position of the first one (where ones and
    zeros differ in the type of the entries) is the rank of the row's
    original value among the sorted distinct values of the column. *)
Theorem one_hot_encode_decode (X : array2 T) (c : nat) :
  of_int 1 != of_int 0 ->
  (0 < nrows X)%N -> (c < ncols X)%N ->
  exists out,
    one_hot_encode leT of_int X [:: c] false = Ok out
    /\ forall i, (i < nrows X)%N ->
       nth x0 (sort leT (undup (column of_int X c)))
         (index (of_int 1) (row_of of_int out i)) = item2 x0 X i c.
Proof.
move=> ne m0 cp.
have pc : all (fun k => k < ncols X)%N [:: c] by rewrite /= cp.
have [out [E _ rows]] :=
  one_hot_encode_rows leT of_int false m0 (isT : uniq [:: c]) pc.
exists out; split=> // i im.
have vc : item2 x0 X i c \in column of_int X c.
  by apply/mapP; exists i; rewrite // mem_iota.
have [blockE rk] := indicators_one_hot leT vc.
have s1 : sort geq [:: c] = [:: c] by [].
rewrite rows // /encode_row s1 /= cats0.
rewrite /row_of (nth_map 0%N) ?size_iota // nth_iota // add0n blockE.
rewrite index_cat; set blk := one_hot_vector _ _ _.
have ib : index (of_int 1) blk = index (item2 x0 X i c)
            (sort leT (undup (column of_int X c))).
  exact: index_one_hot_vector.
have -> : of_int 1 \in blk.
  by rewrite -index_mem ib /blk /one_hot_vector size_map size_iota.
by rewrite ib nth_index // mem_sort mem_undup.
Qed.

(** X19.  Every row of the result ends with the entries of the same row of
    [X] in the columns that are not categorical, in their original
    order. *)
Theorem one_hot_encode_keeps_other_columns (X : array2 T) (cats : seq nat)
    (d : bool) :
  (0 < nrows X)%N -> uniq cats -> all (fun c => c < ncols X)%N cats ->
  exists out,
    one_hot_encode leT of_int X cats d = Ok out
    /\ forall i, (i < nrows X)%N ->
       exists indicator_columns,
         row_of of_int out i =
         indicator_columns
         ++ [seq item2 x0 X i j | j <- iota 0 (ncols X) & j \notin cats].
Proof.
move=> m0 ucats pcats.
have [out [E _ rows]] := one_hot_encode_rows leT of_int d m0 ucats pcats.
exists out; split=> // i im; rewrite rows // /encode_row.
eexists; congr (_ ++ _).
have sr : size (row_of of_int X i) = ncols X by rewrite size_map size_iota.
rewrite (@foldl_del_at _ of_int) ?sorted_gtn_sort ?all_sort ?sr //.
have Ef : (fun j => j \notin sort geq cats) =1 (fun j => j \notin cats).
  by move=> j; rewrite mem_sort.
rewrite (eq_filter Ef); apply/eq_in_map=> j.
rewrite mem_filter mem_iota add0n => /andP[_ /andP[_ jp]].
by rewrite /row_of (nth_map 0%N) ?size_iota // nth_iota.
Qed.

(** X20.  The order in which the categorical indices are listed does not
    matter. *)
Theorem one_hot_encode_order_irrelevant (X : array2 T) (cats cats' : seq nat)
    (d : bool) :
  perm_eq cats cats' ->
  one_hot_encode leT of_int X cats d = one_hot_encode leT of_int X cats' d.
Proof.
move=> pcc; rewrite /one_hot_encode.
have -> // : sort geq cats = sort geq cats'.
apply/perm_sortP=> //.
- by move=> x y; rewrite /geq; apply: leq_total.
- by move=> x y z /= H1 H2; apply: leq_trans H2 H1.
by move=> x y /= /andP[H1 H2]; apply/eqP; rewrite eqn_leq H1 H2.
Qed.

End OneHotMoreTheorems.

(** ** The further properties on the sample data *)

Lemma least_squares_minimises_rss_witness :
  exists (w' : world rat) (yhat : 'cV[rat]_(1 + 1)),
    [/\ fit rng0 (Nd2 (Array2 X0)) (Array1 y0) "least_squares" 100%:R^-1 1000
          fresh = (Ok None, w'),
        predict (Nd2 (Array2 X0)) w' = (Ok (Array1 yhat), w')
      & forall (b : rat) (c : 'cV[rat]_1),
          \sum_i (y0 i ord0 - yhat i ord0) ^+ 2 <=
          \sum_i (y0 i ord0 - ((X0 *m c) i ord0 + b)) ^+ 2].
Proof.
exact: (least_squares_minimises_rss rng0 y0 100%:R^-1 1000 fresh
          (features2 X0) rank_X0).
Defined.

Lemma least_squares_recovers_linear_data_witness :
  let y := X0 *m (2%:R)%:M + const_mx 1 in
  let w' := World {| coefficients := Some (Array1 ((2%:R)%:M : 'cV[rat]_1));
                     intercept := Some 1 |} [::] in
  fit rng0 (Nd2 (Array2 X0)) (Array1 y) "least_squares" 100%:R^-1 1000 fresh
    = (Ok None, w')
  /\ predict (Nd2 (Array2 X0)) w' = (Ok (Array1 y), w').
Proof.
exact: (least_squares_recovers_linear_data rng0 1 (2%:R)%:M 100%:R^-1 1000
          fresh (features2 X0) rank_X0).
Defined.

Lemma least_squares_rank_deficient_witness :
  fit rng0 (Nd2 (Array2 Xs)) (Array1 ys) "least_squares" 100%:R^-1 1000 fresh
  = (Raise LinAlgError, fresh).
Proof.
apply: (least_squares_rank_deficient rng0 ys 100%:R^-1 1000 fresh
          (features2 Xs)).
exact: (rank_leq_row (augmented Xs)).
Defined.

Lemma gd_mse_history_nonnegative_witness :
  exists ms cs bs w',
    fit rng0 (Nd2 (Array2 X0)) (Array1 y0) "gradient_descent" 100%:R^-1 100
      fresh = (Ok (Some (ms, cs, bs)), w')
    /\ all (fun x : rat => 0 <= x) ms.
Proof.
have E := @fit_gd_returns rat rng0 _ _ _ _ y0 100%:R^-1 100 fresh
            (features2 X0) isT.
do 4!eexists; split; first exact: E.
exact: (gd_mse_history_nonnegative (features2 X0) E).
Defined.

Lemma gd_printed_reports_witness :
  exists r w',
    fit rng0 (Nd2 (Array2 X0)) (Array1 y0) "gradient_descent" 100%:R^-1 100
      fresh = (Ok r, w')
    /\ stdout w' =
       [::] ++
       [seq (k, Some (gd_mse (augmented X0) y0
                        (iter k (gd_step 100%:R^-1 (augmented X0) y0)
                           (gd_start rng0 1))))
       | k <- iota 0 100 & (k %% (100 %/ 10) == 0)%N].
Proof.
have E := @fit_gd_returns rat rng0 _ _ _ _ y0 100%:R^-1 100 fresh
            (features2 X0) isT.
do 2!eexists; split; first exact: E.
exact: (gd_printed_reports (features2 X0) E).
Defined.

Lemma gd_zero_learning_rate_witness :
  exists ms cs bs w',
    fit rng0 (Nd2 (Array2 X0)) (Array1 y0) "gradient_descent" 0 100 fresh
      = (Ok (Some (ms, cs, bs)), w')
    /\ [/\ self w' = fitted (gd_start rng0 1),
           cs = nseq 100 (Array1 (dsubmx (gd_start rng0 1)))
         & bs = nseq 100 (Some (gd_start rng0 1 ord0 ord0))].
Proof.
have E := @fit_gd_returns rat rng0 _ _ _ _ y0 0 100 fresh
            (features2 X0) isT.
do 4!eexists; split; first exact: E.
exact: (gd_zero_learning_rate (features2 X0) E).
Defined.

Lemma gd_last_snapshot_is_model_witness :
  exists ms cs bs w',
    fit rng0 (Nd2 (Array2 X0)) (Array1 y0) "gradient_descent" 100%:R^-1 100
      fresh = (Ok (Some (ms, cs, bs)), w')
    /\ (coefficients (self w') = Some (last (Array1 (0 : 'cV[rat]_0)) cs)
        /\ intercept (self w') = last None bs).
Proof.
have E := @fit_gd_returns rat rng0 _ _ _ _ y0 100%:R^-1 100 fresh
            (features2 X0) isT.
have H := gd_last_snapshot_is_model (features2 X0) (isT : (0 < 100)%N) E.
by do 4!eexists; split; [exact: E|exact: H].
Defined.

Lemma fit_forgets_previous_parameters_witness :
  (fit rng0 (Nd2 (Array2 X0)) (Array1 y0) "least_squares" 100%:R^-1 1000
     (World (init rat) [::])).2 =
  (fit rng0 (Nd2 (Array2 X0)) (Array1 y0) "least_squares" 100%:R^-1 1000
     (World used [::])).2.
Proof.
have [_ H] := fit_forgets_previous_parameters rng0 (Nd2 (Array2 X0))
                (Array1 y0) "least_squares" 100%:R^-1 1000 (init rat) used [::].
apply: H.
by rewrite (fit_least_squaresE rng0 y0 100%:R^-1 1000 _ (features2 X0))
           gram_X0_unit.
Defined.

Lemma gd_epoch_fixes_least_squares_witness :
  exists r w',
    gd_epoch (Array2 (augmented X0)) (Array1 y0) (1 + 1) 100%:R^-1 100 0
      ([::], [::], [::]) (World (fitted (normal_equation X0 y0)) [::])
    = (Ok r, w')
    /\ self w' = fitted (normal_equation X0 y0).
Proof.
have E : gd_epoch (Array2 (augmented X0)) (Array1 y0) (1 + 1) 100%:R^-1 100 0
           ([::], [::], [::]) (World (fitted (normal_equation X0 y0)) [::]) =
         epoch_outcome (augmented X0) y0 100%:R^-1 100 0 ([::], [::], [::])
           (normal_equation X0 y0) [::].
  exact: gd_epochE.
rewrite (@epoch_outcome_ok rat 1 1) // in E.
do 2!eexists; split; first exact: E.
exact: (gd_epoch_fixes_least_squares gram_X0_unit E).
Defined.

Lemma one_hot_encode_index_out_of_range_witness :
  one_hot_encode leq id (Array2 D0) [:: 0%N; 5%N] true = Raise IndexError.
Proof.
exact: (@one_hot_encode_index_out_of_range _ leq id (Array2 D0)
          [:: 0%N; 5%N] true isT).
Defined.

Lemma one_hot_encode_one_hot_rows_witness :
  exists out,
    one_hot_encode leq id (Array2 D0) [:: 0%N] false = Ok out
    /\ forall i, (i < 3)%N ->
       let rank c :=
         index (item2 0%N (Array2 D0) i c)
           (sort leq (undup (column id (Array2 D0) c))) in
       row_of id out i =
         flatten [seq one_hot_vector id (unique_count id (Array2 D0) c) (rank c)
                 | c <- rev (sort geq [:: 0%N])]
         ++ foldl (fun r c => del_at c r) (row_of id (Array2 D0) i)
              (sort geq [:: 0%N])
       /\ forall c, c \in [:: 0%N] ->
            (rank c < unique_count id (Array2 D0) c)%N.
Proof.
exact: (@one_hot_encode_one_hot_rows _ leq id (Array2 D0) [:: 0%N]
          isT isT isT).
Defined.

Lemma one_hot_encode_decode_witness :
  exists out,
    one_hot_encode leq id (Array2 D0) [:: 0%N] false = Ok out
    /\ forall i, (i < 3)%N ->
       nth 0%N (sort leq (undup (column id (Array2 D0) 0)))
         (index 1%N (row_of id out i)) = item2 0%N (Array2 D0) i 0.
Proof.
exact: (@one_hot_encode_decode _ leq id (Array2 D0) 0 isT isT isT).
Defined.

Lemma one_hot_encode_keeps_other_columns_witness :
  exists out,
    one_hot_encode leq id (Array2 D0) [:: 0%N] true = Ok out
    /\ forall i, (i < 3)%N ->
       exists indicator_columns,
         row_of id out i =
         indicator_columns
         ++ [seq item2 0%N (Array2 D0) i j | j <- iota 0 2 & j \notin [:: 0%N]].
Proof.
exact: (@one_hot_encode_keeps_other_columns _ leq id (Array2 D0) [:: 0%N]
          true isT isT isT).
Defined.

Lemma one_hot_encode_order_irrelevant_witness :
  one_hot_encode leq id (Array2 D0) [:: 0%N; 1%N] false =
  one_hot_encode leq id (Array2 D0) [:: 1%N; 0%N] false.
Proof.
exact: (@one_hot_encode_order_irrelevant _ leq id (Array2 D0)
          [:: 0%N; 1%N] [:: 1%N; 0%N] false isT).
Defined.
